(** * ai-streamer-demo: the browser client's reconstruction engine

    A shallow embedding of the TypeScript front end:

    - [frontend/src/utils/AudioQueue.ts]      the audio sequencer,
    - [frontend/src/store/useLiveStore.ts]    the zustand store (transcript),
    - [frontend/src/hooks/useWebSocket.ts]    frame demultiplexer, echo
                                              suppression, presentation state,
    - [frontend/src/components/ChatBox.tsx]   the send gateway ([handleSend]),
    - [frontend/src/App.tsx]                  [handleConnect].

    The client is a single-threaded event loop.  Every handler is embedded as
    a function from state to state; the browser (audio elements, the socket,
    the clock, [uuidv4]) is the environment that chooses the next event. *)

From Stdlib Require Import ZArith NArith List Bool Lia String Ascii.
From stdpp Require Import base list.
Import ListNotations.

Local Open Scope Z_scope.

(** ** JavaScript strings

    A JS string is a sequence of UTF-16 code units. *)

Module Js.

Definition JsString := list N.

(** An ASCII literal as a JS string. *)
Definition js (s : string) : JsString :=
  map N_of_ascii (list_ascii_of_string s).

(** [if (s)]: a string is truthy when it is not empty. *)
Definition truthy (s : JsString) : bool :=
  match s with [] => false | _ :: _ => true end.

Definition eqb (a b : JsString) : bool := bool_decide (a = b).

(** [s.startsWith(p)] *)
Fixpoint startsWith (s p : JsString) {struct p} : bool :=
  match p, s with
  | [], _ => true
  | _ :: _, [] => false
  | c :: p', d :: s' => N.eqb c d && startsWith s' p'
  end.

(** [s.endsWith(p)] *)
Definition endsWith (s p : JsString) : bool :=
  startsWith (rev s) (rev p).

Definition clamp (len i : Z) : Z := Z.max 0 (Z.min i len).

(** [s.substring(a, b)]: both indices are clamped to [0, s.length] and
    swapped when [a > b]. *)
Definition substring (s : JsString) (a b : Z) : JsString :=
  let len := Z.of_nat (length s) in
  let a' := clamp len a in
  let b' := clamp len b in
  let lo := Z.min a' b' in
  let hi := Z.max a' b' in
  take (Z.to_nat (hi - lo)) (drop (Z.to_nat lo) s).

(** White space and line terminators of ECMAScript ([String.prototype.trim]). *)
Definition isWhiteSpace (c : N) : bool :=
  let z := Z.of_N c in
  (9 <=? z) && (z <=? 13)
  || (z =? 32) || (z =? 160) || (z =? 5760)
  || (8192 <=? z) && (z <=? 8202)
  || (z =? 8232) || (z =? 8233) || (z =? 8239) || (z =? 8287)
  || (z =? 12288) || (z =? 65279).

Fixpoint trimStart (s : JsString) : JsString :=
  match s with
  | c :: s' => if isWhiteSpace c then trimStart s' else s
  | [] => []
  end.

Definition trimEnd (s : JsString) : JsString := rev (trimStart (rev s)).

(** [s.trim()] *)
Definition trim (s : JsString) : JsString := trimEnd (trimStart s).

(** [arr.indexOf(x)]: index of the first element strictly equal to [x],
    or [-1]. *)
Fixpoint indexOf (arr : list JsString) (x : JsString) : Z :=
  match arr with
  | [] => -1
  | y :: arr' =>
      if eqb y x then 0
      else let i := indexOf arr' x in if i =? -1 then -1 else i + 1
  end.

(** [arr.splice(i, 1)] for [0 <= i]: removes the element at index [i]. *)
Definition splice1 (arr : list JsString) (i : Z) : list JsString :=
  take (Z.to_nat i) arr ++ drop (S (Z.to_nat i)) arr.

End Js.

Import Js.

(** ** The audio sequencer: [AudioQueue.ts] *)

(** An [HTMLAudioElement] created by [new Audio(src)].  [el_id] is the
    identity of the object: the handlers [onended], [onerror] and the
    rejection handler of [play()] are closures attached to one element. *)
Record HTMLAudioElement := mkAudio {
  el_id : nat;
  el_src : JsString;
}.

(** The fields of the class.  [audioContext] tells whether the context and
    its analyser have been created; [sourceNode] names the element the live
    [MediaElementAudioSourceNode] was built from. *)
Record AudioQueue := mkAudioQueue {
  queue : list JsString;
  isPlaying : bool;
  currentAudio : option HTMLAudioElement;
  audioContext : bool;
  sourceNode : option nat;
}.

Inductive ConsoleError :=
| AudioPlaybackError (id : nat)      (* console.error('Audio playback error', e) *)
| FailedToPlayAudio (id : nat)       (* console.error('Failed to play audio:', e) *)
| WebSocketError.                    (* console.error("WebSocket error:", error) *)

(** What the page observes of the sequencer: every element on which [play()]
    was called, oldest first; the elements that are sounding, that is, that
    were started and have neither reached a terminal event nor been paused;
    and the error console. *)
Record Browser := mkBrowser {
  played : list HTMLAudioElement;
  sounding : list nat;
  console : list ConsoleError;
}.

(** The sequencer together with the browser and with the state [Obs] its
    playback-state callback acts on. *)
Record Player (Obs : Type) := mkPlayer {
  aq : AudioQueue;
  dom : Browser;
  obs : Obs;
}.
Arguments mkPlayer {Obs}.
Arguments aq {Obs}.
Arguments dom {Obs}.
Arguments obs {Obs}.

Definition data_uri (base64Audio : JsString) : JsString :=
  js "data:audio/mp3;base64," ++ base64Audio.

Definition new_AudioQueue : AudioQueue :=
  {| queue := []; isPlaying := false; currentAudio := None;
     audioContext := false; sourceNode := None |}.

Definition new_Browser : Browser :=
  {| played := []; sounding := []; console := [] |}.

Section Sequencer.

Context {Obs : Type}.

(** The constructor's optional argument; assigned once. *)
Variable onPlaybackStateChange : option (bool -> Obs -> Obs).

Implicit Types (p : Player Obs) (q : AudioQueue).

Definition with_aq (f : AudioQueue -> AudioQueue) p : Player Obs :=
  mkPlayer (f (aq p)) (dom p) (obs p).

Definition with_dom (f : Browser -> Browser) p : Player Obs :=
  mkPlayer (aq p) (f (dom p)) (obs p).

Definition set_queue (l : list JsString) q : AudioQueue :=
  mkAudioQueue l (isPlaying q) (currentAudio q) (audioContext q) (sourceNode q).

Definition set_isPlaying (b : bool) q : AudioQueue :=
  mkAudioQueue (queue q) b (currentAudio q) (audioContext q) (sourceNode q).

Definition set_currentAudio (a : option HTMLAudioElement) q : AudioQueue :=
  mkAudioQueue (queue q) (isPlaying q) a (audioContext q) (sourceNode q).

Definition set_audioContext (b : bool) q : AudioQueue :=
  mkAudioQueue (queue q) (isPlaying q) (currentAudio q) b (sourceNode q).

Definition set_sourceNode (n : option nat) q : AudioQueue :=
  mkAudioQueue (queue q) (isPlaying q) (currentAudio q) (audioContext q) n.

(** [if (this.onPlaybackStateChange) this.onPlaybackStateChange(b)] *)
Definition notify (b : bool) p : Player Obs :=
  match onPlaybackStateChange with
  | Some f => mkPlayer (aq p) (dom p) (f b (obs p))
  | None => p
  end.

(** [console.error(...)] *)
Definition console_error (e : ConsoleError) p : Player Obs :=
  with_dom (fun d => mkBrowser (played d) (sounding d) (console d ++ [e])) p.

(** [this.currentAudio.play()]: the element starts sounding. *)
Definition play (el : HTMLAudioElement) p : Player Obs :=
  with_dom (fun d =>
    mkBrowser (played d ++ [el]) (el_id el :: sounding d) (console d)) p.

(** The element [id] stops sounding (it ended, failed, or was paused). *)
Definition silence (id : nat) p : Player Obs :=
  with_dom (fun d =>
    mkBrowser (played d) (filter (fun i => i ≠ id) (sounding d)) (console d)) p.

(** [private initAudioContext()] *)
Definition initAudioContext p : Player Obs :=
  if audioContext (aq p) then p else with_aq (set_audioContext true) p.

(** [private playNext()] *)
Definition playNext p : Player Obs :=
  if isPlaying (aq p) then p
  else
    match queue (aq p) with
    | [] => notify false (with_aq (set_isPlaying false) p)
    | base64Audio :: rest =>
        (* const base64Audio = this.queue.shift() *)
        let p := with_aq (set_queue rest) p in
        if negb (truthy base64Audio) then p
        else
          let p := notify true (with_aq (set_isPlaying true) p) in
          let el := mkAudio (length (played (dom p))) (data_uri base64Audio) in
          let p := with_aq (set_currentAudio (Some el)) p in
          let p :=
            if audioContext (aq p)
            then with_aq (set_sourceNode (Some (el_id el))) p
            else p in
          play el p
    end.

(** [enqueue(base64Audio)] *)
Definition enqueue (base64Audio : JsString) p : Player Obs :=
  let p := initAudioContext p in
  let p := with_aq (fun q => set_queue (queue q ++ [base64Audio]) q) p in
  playNext p.

(** [this.currentAudio.onended] *)
Definition onended p : Player Obs :=
  let p := with_aq (set_isPlaying false) p in
  let p := with_aq (set_currentAudio None) p in
  playNext p.

(** [this.currentAudio.onerror], attached to element [id] *)
Definition onerror (id : nat) p : Player Obs :=
  let p := console_error (AudioPlaybackError id) p in
  let p := with_aq (set_isPlaying false) p in
  let p := with_aq (set_currentAudio None) p in
  playNext p.

(** [this.currentAudio.play().catch(...)], attached to element [id] *)
Definition play_catch (id : nat) p : Player Obs :=
  let p := console_error (FailedToPlayAudio id) p in
  let p := with_aq (set_sourceNode None) p in
  let p := with_aq (set_isPlaying false) p in
  let p := with_aq (set_currentAudio None) p in
  playNext p.

(** [clear()] *)
Definition clear p : Player Obs :=
  let p := with_aq (set_queue []) p in
  let p :=
    match currentAudio (aq p) with
    | Some el => with_aq (set_currentAudio None) (silence (el_id el) p)
    | None => p
    end in
  let p := with_aq (set_sourceNode None) p in
  let p := with_aq (set_isPlaying false) p in
  notify false p.

(** [getIsPlaying()] *)
Definition getIsPlaying p : bool := isPlaying (aq p).

(** [getByteFrequencyData()].  The analyser exists exactly when the audio
    context does: [initAudioContext] creates both.  [reading] is what the
    analyser writes into the fresh [Uint8Array]. *)
Definition getByteFrequencyData (reading : list N) p : option (list N) :=
  if negb (audioContext (aq p)) || negb (isPlaying (aq p)) then None
  else Some reading.

(** *** Events of the sequencer

    The page calls [enqueue] and [clear]; the browser delivers the
    terminal event of an element.  An element delivers one terminal event,
    and only while it is sounding: the handlers are closures on the
    element, and a paused or finished element raises no further event. *)
Inductive AudioEvent :=
| Enqueue (base64Audio : JsString)
| Ended (id : nat)
| Errored (id : nat)
| PlayRejected (id : nat)
| Clear.

Definition is_sounding (id : nat) p : bool :=
  bool_decide (id ∈ sounding (dom p)).

Definition audio_step (e : AudioEvent) p : option (Player Obs) :=
  match e with
  | Enqueue s => Some (enqueue s p)
  | Ended id =>
      if is_sounding id p then Some (onended (silence id p)) else None
  | Errored id =>
      if is_sounding id p then Some (onerror id (silence id p)) else None
  | PlayRejected id =>
      if is_sounding id p then Some (play_catch id (silence id p)) else None
  | Clear => Some (clear p)
  end.

Fixpoint audio_run (es : list AudioEvent) p : option (Player Obs) :=
  match es with
  | [] => Some p
  | e :: es' =>
      match audio_step e p with
      | Some p' => audio_run es' p'
      | None => None
      end
  end.

(** Payloads handed to [enqueue], in arrival order. *)
Fixpoint arrivals (es : list AudioEvent) : list JsString :=
  match es with
  | [] => []
  | Enqueue s :: es' => s :: arrivals es'
  | _ :: es' => arrivals es'
  end.


End Sequencer.

(** ** The store: [useLiveStore.ts] and [types/index.ts] *)

Inductive Role := user | model | other_user | system.

Record ChatMessage := mkChatMessage {
  id : nat;                 (* a [uuidv4()] value *)
  role : Role;
  content : JsString;
  timestamp : Z;            (* [new Date()], in milliseconds *)
}.

Inductive StreamerState := Idle | Thinking | Speaking.

Inductive ConnectionStatus := Connecting | Connected | Error | Disconnected.

Record LiveStore := mkLiveStore {
  messages : list ChatMessage;
  streamerState : StreamerState;
  onlineCount : Z;
}.

Module Store.

Definition is_model (r : Role) : bool :=
  match r with model => true | _ => false end.

Definition initial : LiveStore :=
  {| messages := []; streamerState := Idle; onlineCount := 1 |}.

Definition set_messages (l : list ChatMessage) (st : LiveStore) : LiveStore :=
  mkLiveStore l (streamerState st) (onlineCount st).

(** [addMessage: (msg) => set(state => ({ messages: [...state.messages, msg] }))] *)
Definition addMessage (msg : ChatMessage) (st : LiveStore) : LiveStore :=
  set_messages (messages st ++ [msg]) st.

(** [updateBotReply(chunk)] *)
Definition updateBotReply (chunk : JsString) (st : LiveStore) : LiveStore :=
  let messages := messages st in
  if (length messages =? 0)%nat then set_messages messages st
  else
    match messages !! (length messages - 1)%nat with
    | Some lastMsg =>
        if is_model (role lastMsg) then
          let updatedMsg :=
            mkChatMessage (id lastMsg) (role lastMsg)
                          (content lastMsg ++ chunk) (timestamp lastMsg) in
          set_messages (<[(length messages - 1)%nat := updatedMsg]> messages) st
        else set_messages messages st
    | None => set_messages messages st
    end.

Definition setStreamerState (s : StreamerState) (st : LiveStore) : LiveStore :=
  mkLiveStore (messages st) s (onlineCount st).

Definition setOnlineCount (n : Z) (st : LiveStore) : LiveStore :=
  mkLiveStore (messages st) (streamerState st) n.

(** [clearMessages: () => set({ messages: [] })] *)
Definition clearMessages (st : LiveStore) : LiveStore := set_messages [] st.

(** The operations that act on the transcript. *)
Inductive TranscriptOp :=
| OpAdd (msg : ChatMessage)
| OpUpdateBotReply (chunk : JsString)
| OpClear.

Definition apply_op (o : TranscriptOp) (st : LiveStore) : LiveStore :=
  match o with
  | OpAdd msg => addMessage msg st
  | OpUpdateBotReply chunk => updateBotReply chunk st
  | OpClear => clearMessages st
  end.

End Store.

(** ** The page: [useWebSocket.ts], [ChatBox.tsx], [App.tsx] *)

(** [WebSocket.readyState] *)
Inductive ReadyState := CONNECTING | OPEN | CLOSING | CLOSED.

(** State of the [useWebSocket] hook: [status], and the refs [wsRef] (the
    current socket, by its ready state), [isReceivingBotMessage] and
    [sentMessagesRef]. *)
Record Hook := mkHook {
  status : ConnectionStatus;
  wsRef : option ReadyState;
  isReceivingBotMessage : bool;
  sentMessagesRef : list JsString;
}.

(** State of the [ChatBox] component; [timers] holds the due times of the
    pending [setTimeout(() => setIsCooldown(false), ...)] callbacks. *)
Record ChatBox := mkChatBox {
  inputText : JsString;
  lastSendTime : Z;
  isCooldown : bool;
  timers : list Z;
}.

(** The network and [uuidv4]: the messages passed to [ws.send], oldest
    first, and the next identifier to hand out. *)
Record Net := mkNet {
  wire : list JsString;
  uuid_next : nat;
}.

Record App := mkApp {
  store : LiveStore;
  hook : Hook;
  chat : ChatBox;
  net : Net;
}.

(** The whole client: the sequencer, the browser, and the page its callback
    acts on. *)
Definition World := Player App.

(** The four kinds of inbound unit. *)
Inductive Frame :=
| UserEcho (text : JsString)
| AudioChunk (payload : JsString)
| StreamEnd
| TextToken (text : JsString).

Definition COOLDOWN_MS : Z := 2000.

Module Page.

Definition initial_hook : Hook :=
  {| status := Disconnected; wsRef := None;
     isReceivingBotMessage := false; sentMessagesRef := [] |}.

Definition initial_chat : ChatBox :=
  {| inputText := []; lastSendTime := 0; isCooldown := false; timers := [] |}.

Definition initial_app : App :=
  {| store := Store.initial; hook := initial_hook; chat := initial_chat;
     net := {| wire := []; uuid_next := 0 |} |}.

Definition with_store (f : LiveStore -> LiveStore) (a : App) : App :=
  mkApp (f (store a)) (hook a) (chat a) (net a).

Definition with_hook (f : Hook -> Hook) (a : App) : App :=
  mkApp (store a) (f (hook a)) (chat a) (net a).

Definition with_chat (f : ChatBox -> ChatBox) (a : App) : App :=
  mkApp (store a) (hook a) (f (chat a)) (net a).

Definition with_net (f : Net -> Net) (a : App) : App :=
  mkApp (store a) (hook a) (chat a) (f (net a)).

Definition set_status (s : ConnectionStatus) (h : Hook) : Hook :=
  mkHook s (wsRef h) (isReceivingBotMessage h) (sentMessagesRef h).

Definition set_wsRef (r : option ReadyState) (h : Hook) : Hook :=
  mkHook (status h) r (isReceivingBotMessage h) (sentMessagesRef h).

Definition set_isReceivingBotMessage (b : bool) (h : Hook) : Hook :=
  mkHook (status h) (wsRef h) b (sentMessagesRef h).

Definition set_sentMessagesRef (l : list JsString) (h : Hook) : Hook :=
  mkHook (status h) (wsRef h) (isReceivingBotMessage h) l.

Definition setStreamerState (s : StreamerState) (a : App) : App :=
  with_store (Store.setStreamerState s) a.

(** [addMessage({ id: uuidv4(), role, content, timestamp: new Date() })] *)
Definition post (r : Role) (text : JsString) (now : Z) (a : App) : App :=
  let msg := mkChatMessage (uuid_next (net a)) r text now in
  with_net (fun n => mkNet (wire n) (S (uuid_next n)))
           (with_store (Store.addMessage msg) a).

(** The callback given to [new AudioQueue(...)] by the hook. *)
Definition playbackCallback (isPlaying : bool) (a : App) : App :=
  if isPlaying then setStreamerState Speaking a
  else if negb (isReceivingBotMessage (hook a)) then setStreamerState Idle a
  else setStreamerState Thinking a.

Definition on_app (f : App -> App) (w : World) : World :=
  mkPlayer (aq w) (dom w) (f (obs w)).

(** The state after the hook's mount effect: the queue exists, nothing
    is connected. *)
Definition initial : World := mkPlayer new_AudioQueue new_Browser initial_app.

(** Classification of [event.data], in the order of the tests of
    [ws.onmessage]. *)
Definition classify (msg : JsString) : Frame :=
  if startsWith msg (js "[USER:") && endsWith msg (js "]") then
    UserEcho (substring msg 6 (Z.of_nat (length msg) - 1))
  else if startsWith msg (js "[AUDIO:") then
    AudioChunk (substring msg 7 (Z.of_nat (length msg) - 1))
  else if eqb msg (js "[EOF]") then StreamEnd
  else TextToken msg.

Section Hook.

(** Props of the hook. *)
Variable roomId : JsString.

(** The text of the system entry: the room name between brackets, after
    a five-character greeting and before a party popper. *)
Definition connected_text : JsString :=
  [24050; 36830; 25509; 25151; 38388; 32; 91]%N ++ roomId
  ++ [93; 32; 55356; 57225]%N.

(** [connect] (exported as [reconnect]) *)
Definition connect (w : World) : World :=
  if negb (truthy roomId) then w
  else
    (* the previous socket, if any, is closed and replaced *)
    on_app (with_hook (fun h => set_wsRef (Some CONNECTING)
                                  (set_status Connecting h))) w.

(** [ws.onopen] *)
Definition ws_onopen (now : Z) (w : World) : World :=
  on_app (fun a => post system connected_text now
                     (with_hook (set_status Connected) a)) w.

(** [ws.onclose] *)
Definition ws_onclose (w : World) : World :=
  on_app (with_hook (set_status Disconnected)) w.

(** [ws.onerror] *)
Definition ws_onerror (w : World) : World :=
  console_error WebSocketError
    (on_app (with_hook (set_status Error)) w).

(** [ws.onmessage] *)
Definition ws_onmessage (msg : JsString) (now : Z) (w : World) : World :=
  match classify msg with
  | UserEcho userMsg =>
      let sentIndex := indexOf (sentMessagesRef (hook (obs w))) userMsg in
      if negb (sentIndex =? -1) then
        on_app (with_hook (fun h =>
          set_sentMessagesRef (splice1 (sentMessagesRef h) sentIndex) h)) w
      else on_app (post other_user userMsg now) w
  | AudioChunk base64Audio =>
      enqueue (Some playbackCallback) base64Audio w
  | StreamEnd =>
      let w := on_app (with_hook (set_isReceivingBotMessage false)) w in
      if negb (getIsPlaying w) then on_app (setStreamerState Idle) w else w
  | TextToken msg =>
      if negb (isReceivingBotMessage (hook (obs w))) then
        let w := on_app (with_hook (set_isReceivingBotMessage true)) w in
        let w := on_app (post model msg now) w in
        if negb (getIsPlaying w) then on_app (setStreamerState Thinking) w
        else w
      else on_app (with_store (Store.updateBotReply msg)) w
  end.

(** [sendMessage(text)] *)
Definition sendMessage (text : JsString) (now : Z) (w : World) : World :=
  match wsRef (hook (obs w)) with
  | Some OPEN =>
      if truthy (trim text) then
        on_app (fun a =>
          let a := post user text now a in
          let a := with_hook (fun h =>
                     set_sentMessagesRef (sentMessagesRef h ++ [text]) h) a in
          with_net (fun n => mkNet (wire n ++ [text]) (uuid_next n)) a) w
      else w
  | _ => w
  end.

(** [ChatBox.handleSend], with [onSendMessage = sendMessage] *)
Definition handleSend (now : Z) (w : World) : World :=
  let c := chat (obs w) in
  if now - lastSendTime c <? COOLDOWN_MS then
    on_app (with_chat (fun c =>
      mkChatBox (inputText c) (lastSendTime c) true
        (timers c ++ [now + (COOLDOWN_MS - (now - lastSendTime c))]))) w
  else if truthy (trim (inputText c)) then
    let w := sendMessage (inputText c) now w in
    on_app (with_chat (fun c =>
      mkChatBox [] now (isCooldown c) (timers c))) w
  else w.

(** The input's [onChange]: [setInputText(e.target.value)] *)
Definition setInputText (text : JsString) (w : World) : World :=
  on_app (with_chat (fun c =>
    mkChatBox text (lastSendTime c) (isCooldown c) (timers c))) w.

(** A submission: the text is typed, then sent. *)
Definition submit (text : JsString) (now : Z) (w : World) : World :=
  handleSend now (setInputText text w).

(** The [k]-th pending [setTimeout] callback: [setIsCooldown(false)] *)
Definition cooldown_timeout (k : nat) (w : World) : World :=
  on_app (with_chat (fun c =>
    mkChatBox (inputText c) (lastSendTime c) false (delete k (timers c)))) w.

(** [App.handleConnect] *)
Definition handleConnect (w : World) : World :=
  connect (on_app (with_store Store.clearMessages) w).

(** *** Events of the page *)
Inductive Event :=
| HandleConnect
| WsOpen
| WsClose
| WsError
| WsMessage (data : JsString)
| Submit (text : JsString)
| CooldownTimeout (k : nat)
| AudioEnded (id : nat)
| AudioErrored (id : nat)
| AudioPlayRejected (id : nat).

Definition ws_state (w : World) : option ReadyState := wsRef (hook (obs w)).

Definition set_ready (r : ReadyState) (w : World) : World :=
  on_app (with_hook (set_wsRef (Some r))) w.

(** One event at time [now].  The socket opens only while connecting,
    delivers messages only while open, and closes once; a timer fires
    when it is due; an element delivers a terminal event while it is
    sounding.  Events of a socket that [connect] has replaced are not
    followed: their handlers touch [status] alone. *)
Definition step (now : Z) (e : Event) (w : World) : option World :=
  match e with
  | HandleConnect => Some (handleConnect w)
  | WsOpen =>
      match ws_state w with
      | Some CONNECTING => Some (ws_onopen now (set_ready OPEN w))
      | _ => None
      end
  | WsClose =>
      match ws_state w with
      | Some CONNECTING | Some OPEN | Some CLOSING =>
          Some (ws_onclose (set_ready CLOSED w))
      | _ => None
      end
  | WsError =>
      match ws_state w with
      | Some CONNECTING | Some OPEN => Some (ws_onerror w)
      | _ => None
      end
  | WsMessage data =>
      match ws_state w with
      | Some OPEN => Some (ws_onmessage data now w)
      | _ => None
      end
  | Submit text => Some (submit text now w)
  | CooldownTimeout k =>
      match timers (chat (obs w)) !! k with
      | Some due => if due <=? now then Some (cooldown_timeout k w) else None
      | None => None
      end
  | AudioEnded i => audio_step (Some playbackCallback) (Ended i) w
  | AudioErrored i => audio_step (Some playbackCallback) (Errored i) w
  | AudioPlayRejected i => audio_step (Some playbackCallback) (PlayRejected i) w
  end.

Fixpoint run (es : list (Z * Event)) (w : World) : option World :=
  match es with
  | [] => Some w
  | (now, e) :: es' =>
      match step now e w with
      | Some w' => run es' w'
      | None => None
      end
  end.

End Hook.

End Page.

(** ** The danmaku overlay: [DanmakuOverlay.tsx] *)

Section DanmakuOverlay.

(** The numbers of the page: [top] and [duration] are computed from
    [Math.random()]. *)
Variable Num : Type.

(** A flying comment.  Its [id] is the message id joined with the value of
    [Date.now()]. *)
Record DanmakuItem := mkDanmaku {
  dk_id : nat * Z;
  dk_text : JsString;
  dk_top : Num;
  dk_duration : Num;
}.

(** State of the overlay: the comments on screen, the [lastMessageCount]
    ref, and the ids the pending removal timers were set for. *)
Record Overlay := mkOverlay {
  danmakus : list DanmakuItem;
  lastMessageCount : nat;
  removals : list (nat * Z);
}.

(** [msg.role === 'other-user' || msg.role === 'user'] *)
Definition danmaku_is_chat (msg : ChatMessage) : bool :=
  match role msg with other_user | user => true | _ => false end.

(** The effect that runs when [messages] has changed.  [clock i] is the
    value of [Date.now()], and [draws i] the [top] and [duration], of the
    [i]-th new comment. *)
Definition danmaku_effect (messages : list ChatMessage)
    (clock : nat → Z) (draws : nat → Num * Num) (s : Overlay) : Overlay :=
  let s :=
    if (lastMessageCount s <? length messages)%nat then
      let newMessages := drop (lastMessageCount s) messages in
      let newDanmakus :=
        imap (fun i msg =>
                mkDanmaku (id msg, clock i) (content msg)
                          (fst (draws i)) (snd (draws i)))
             (filter (fun msg => danmaku_is_chat msg = true) newMessages) in
      if (0 <? length newDanmakus)%nat then
        mkOverlay (danmakus s ++ newDanmakus) (lastMessageCount s)
                  (removals s ++ map dk_id newDanmakus)
      else s
    else s in
  mkOverlay (danmakus s) (length messages) (removals s).

(** The removal timer of the comment [d]:
    [setDanmakus(current => current.filter(item => item.id !== d.id))] *)
Definition danmaku_timeout (d : nat * Z) (s : Overlay) : Overlay :=
  mkOverlay (filter (fun item => dk_id item ≠ d) (danmakus s))
            (lastMessageCount s) (removals s).

End DanmakuOverlay.

Arguments mkDanmaku {Num}.
Arguments dk_id {Num}.
Arguments dk_text {Num}.
Arguments dk_top {Num}.
Arguments dk_duration {Num}.
Arguments mkOverlay {Num}.
Arguments danmakus {Num}.
Arguments lastMessageCount {Num}.
Arguments removals {Num}.
Arguments danmaku_effect {Num}.
Arguments danmaku_timeout {Num}.

(** ** Vocabulary of the properties *)

(** An observer that records every value the callback is called with. *)
Definition recorder : option (bool -> list bool -> list bool) :=
  Some (fun isPlaying calls => calls ++ [isPlaying]).

(** A fresh sequencer in front of the observer state [o]. *)
Definition fresh {Obs : Type} (o : Obs) : Player Obs :=
  mkPlayer new_AudioQueue new_Browser o.

(** The session of the sequencer and the sounding elements agree: an
    element is sounding exactly when it is [currentAudio], and then
    [isPlaying] is set. *)
Definition coherent {Obs : Type} (p : Player Obs) : Prop :=
  match currentAudio (aq p) with
  | Some el => isPlaying (aq p) = true ∧ sounding (dom p) = [el_id el]
  | None => isPlaying (aq p) = false ∧ sounding (dom p) = []
  end.




(** The observer contract as the specification words it: every call reports
    a change of state, so the recorded values alternate; [prev] is the state
    before the first call. *)
Fixpoint alternates (prev : bool) (calls : list bool) : bool :=
  match calls with
  | [] => true
  | b :: rest => xorb b prev && alternates b rest
  end.

(** Number of calls with the value "playing". *)
Definition playing_calls (calls : list bool) : nat :=
  length (filter (fun b => b = true) calls).

(** A fragment began playback between [p] and [p']. *)
Definition begins {Obs : Type} (p p' : Player Obs) : bool :=
  (length (played (dom p)) <? length (played (dom p')))%nat.

(** The calls the sequencer makes during one event: "playing" when a
    fragment begins; "idle" on every [clear()], and when a terminal event
    finds the queue empty. *)
Definition expected_calls {Obs : Type}
    (e : AudioEvent) (p p' : Player Obs) : list bool :=
  match e with
  | Clear => [false]
  | Enqueue _ => if begins p p' then [true] else []
  | Ended _ | Errored _ | PlayRejected _ =>
      if begins p p' then [true]
      else if bool_decide (queue (aq p) = []) then [false] else []
  end.

(** Two fragments (base64 of three bytes each). *)
Definition frag_A : JsString := js "QUJD".
Definition frag_B : JsString := js "REVG".







(** Projections of the world. *)
Definition transcript (w : World) : list ChatMessage := messages (store (obs w)).
Definition presentation (w : World) : StreamerState := streamerState (store (obs w)).
Definition pending (w : World) : list JsString := sentMessagesRef (hook (obs w)).
Definition sent_on_wire (w : World) : list JsString := wire (net (obs w)).

(** The frame [[USER:text]]. *)
Definition user_frame (text : JsString) : JsString :=
  js "[USER:" ++ text ++ js "]".

(** The receiving flag of the hook. *)
Definition receiving_flag (w : World) : bool :=
  isReceivingBotMessage (hook (obs w)).




(** What the handlers of a trace write to the error console. *)
Definition reports (es : list AudioEvent) : list ConsoleError :=
  flat_map (fun e =>
    match e with
    | Errored i => [AudioPlaybackError i]
    | PlayRejected i => [FailedToPlayAudio i]
    | _ => []
    end) es.

(** Inbound messages handled one after the other, each with its time. *)
Definition receive (frames : list (JsString * Z)) (w : World) : World :=
  fold_left (fun w f => Page.ws_onmessage (fst f) (snd f) w) frames w.

(** The text chunks among the frames, joined in arrival order. *)
Definition reply_text (frames : list (JsString * Z)) : JsString :=
  flat_map (fun f =>
    match Page.classify (fst f) with
    | TextToken text => text
    | _ => []
    end) frames.

(** A frame of an assistant turn: a text chunk or an audio fragment. *)
Definition turn_frame (f : JsString * Z) : Prop :=
  match Page.classify (fst f) with
  | TextToken _ | AudioChunk _ => True
  | _ => False
  end.

(** Submissions made one after the other, each with its text and time. *)
Definition submit_all (attempts : list (JsString * Z)) (w : World) : World :=
  fold_left (fun w a => Page.submit (fst a) (snd a) w) attempts w.

(** Everything on the page but the presentation state: the transcript,
    the hook's state, the chat box and the network. *)
Definition page_data (a : App) : list ChatMessage * Hook * ChatBox * Net :=
  (messages (store a), hook a, chat a, net a).

(** The transcript [l'] has every entry of [l] but possibly the tail, at
    the same place and unchanged, and is not shorter. *)
Definition keeps_earlier (l l' : list ChatMessage) : Prop :=
  (length l ≤ length l')%nat
  ∧ ∀ i m, (S i < length l)%nat → l !! i = Some m → l' !! i = Some m.

(** * Properties *)

(** ** The sequencer *)

Section SequencerFacts.

Context {Obs : Type}.
Variable cb : option (bool -> Obs -> Obs).

Implicit Types (p : Player Obs).

Lemma notify_aq b p : aq (notify cb b p) = aq p.
Proof. unfold notify. by destruct cb. Qed.

Lemma notify_dom b p : dom (notify cb b p) = dom p.
Proof. unfold notify. by destruct cb. Qed.

(** What [playNext] does when nothing is playing. *)
Lemma playNext_not_playing p :
  isPlaying (aq p) = false →
  match queue (aq p) with
  | [] =>
      playNext cb p = notify cb false p
  | h :: rest =>
      if truthy h then
        let el := mkAudio (length (played (dom p))) (data_uri h) in
        aq (playNext cb p) =
          mkAudioQueue rest true (Some el) (audioContext (aq p))
            (if audioContext (aq p) then Some (el_id el) else sourceNode (aq p))
        ∧ dom (playNext cb p) =
            mkBrowser (played (dom p) ++ [el]) (el_id el :: sounding (dom p))
                      (console (dom p))
        ∧ obs (playNext cb p) =
            match cb with Some f => f true (obs p) | None => obs p end
      else playNext cb p = with_aq (set_queue rest) p
  end.
Proof.
  destruct p as [[q ip ca ac sn] [pl so co] o]; cbn. intros ->.
  destruct q as [|h rest]; cbn.
  - unfold playNext, notify; cbn. by destruct cb.
  - unfold playNext; cbn. destruct h as [|c h]; cbn; [done|].
    unfold notify; destruct cb; cbn; destruct ac; cbn; done.
Qed.

Lemma playNext_playing p :
  isPlaying (aq p) = true → playNext cb p = p.
Proof. intros H. unfold playNext. by rewrite H. Qed.










(** *** Arrival order *)






Lemma arrivals_app es1 es2 : arrivals (es1 ++ es2) = arrivals es1 ++ arrivals es2.
Proof.
  induction es1 as [|e es1 IH]; [done|].
  destruct e; cbn; by rewrite ?IH.
Qed.




Lemma audio_run_snoc es e p :
  audio_run cb (es ++ [e]) p =
  match audio_run cb es p with
  | Some p' => audio_step cb e p'
  | None => None
  end.
Proof.
  revert p. induction es as [|e' es IH]; intros p; cbn.
  - by destruct (audio_step cb e p).
  - destruct (audio_step cb e' p); [apply IH|done].
Qed.

(** Induction along a run of the sequencer. *)
Lemma audio_run_ind (I : list AudioEvent → Player Obs → Prop) p0 :
  I [] p0 →
  (∀ es e p p', I es p → audio_step cb e p = Some p' → I (es ++ [e]) p') →
  ∀ es p, audio_run cb es p0 = Some p → I es p.
Proof.
  intros H0 Hstep es. induction es as [|e es IH] using rev_ind; intros p.
  - cbn. by intros [= <-].
  - rewrite audio_run_snoc.
    destruct (audio_run cb es p0) as [p1|] eqn:Hrun; [|done].
    intros He. eapply Hstep; eauto.
Qed.




End SequencerFacts.

(** ** The transcript *)

Section StoreFacts.

Import Store.

Implicit Types (st : LiveStore) (m : ChatMessage).

Lemma updateBotReply_nil chunk st :
  messages st = [] → messages (updateBotReply chunk st) = [].
Proof. intros H. unfold updateBotReply. by rewrite H. Qed.

Lemma updateBotReply_snoc chunk st l m :
  messages st = l ++ [m] →
  messages (updateBotReply chunk st) =
    if is_model (role m)
    then l ++ [mkChatMessage (id m) (role m) (content m ++ chunk) (timestamp m)]
    else l ++ [m].
Proof.
  intros H. unfold updateBotReply. rewrite H.
  assert (length (l ++ [m]) - 1 = length l)%nat as ->
    by (rewrite length_app; cbn; lia).
  assert ((length (l ++ [m]) =? 0)%nat = false) as ->
    by (apply Nat.eqb_neq; rewrite length_app; cbn; lia).
  rewrite list_lookup_middle by done.
  destruct (is_model (role m)); cbn; [|done].
  by rewrite (insert_app_r_alt l [m] (length l)), Nat.sub_diag by lia.
Qed.


Lemma is_model_true r : is_model r = true ↔ r = model.
Proof. by destruct r. Qed.

(** C10.  Each store operation on the transcript either appends
    ([addMessage]), empties the log ([clearMessages]), or extends the
    content of the tail entry in place ([updateBotReply], and only when
    the tail's role is [model]).  On an empty log, or when the tail is not
    a [model] entry, [updateBotReply] leaves the whole transcript as it
    was; no operation other than the reset changes the number of earlier
    entries or the id, role, timestamp or content of an entry that is not
    the tail, and the tail keeps its id, role and timestamp. *)
Theorem only_model_tail_is_extended (op : TranscriptOp) st :
  (∀ chunk, op = OpUpdateBotReply chunk →
     (messages st = [] ∨ ∃ m, last (messages st) = Some m ∧ role m ≠ model) →
     messages (apply_op op st) = messages st)
  ∧ (∀ chunk l m, op = OpUpdateBotReply chunk →
     messages st = l ++ [m] → role m = model →
     messages (apply_op op st) =
       l ++ [mkChatMessage (id m) model (content m ++ chunk) (timestamp m)])
  ∧ (∀ msg, op = OpAdd msg → messages (apply_op op st) = messages st ++ [msg])
  ∧ (op = OpClear → messages (apply_op op st) = [])
  ∧ (op ≠ OpClear →
     (length (messages st) ≤ length (messages (apply_op op st)))%nat
     ∧ (∀ i m, (S i < length (messages st))%nat →
          messages st !! i = Some m →
          messages (apply_op op st) !! i = Some m)
     ∧ (∀ m, last (messages st) = Some m →
          ∃ m', messages (apply_op op st) !! (length (messages st) - 1)%nat
                = Some m'
                ∧ id m' = id m ∧ role m' = role m
                ∧ timestamp m' = timestamp m
                ∧ (content m' = content m
                   ∨ ∃ chunk, op = OpUpdateBotReply chunk ∧ role m = model
                              ∧ content m' = content m ++ chunk))).
Proof.
  split; [|split; [|split; [|split]]].
  - intros chunk -> [Hnil | (m & Hlast & Hrole)]; cbn.
    + by rewrite updateBotReply_nil.
    + apply last_Some in Hlast as [l Hl].
      rewrite (updateBotReply_snoc chunk st l m Hl), Hl.
      destruct (is_model (role m)) eqn:Hm; [|done].
      by apply is_model_true in Hm.
  - intros chunk l m -> Hl Hrole. cbn.
    rewrite (updateBotReply_snoc chunk st l m Hl), Hrole. done.
  - by intros msg ->.
  - by intros ->.
  - intros Hop. destruct op as [msg | chunk |]; [| |done]; cbn.
    + rewrite length_app. split; [lia|]. split.
      * intros i m Hi Hm. by apply lookup_app_l_Some.
      * intros m Hlast. exists m.
        apply last_Some in Hlast as [l Hl]. rewrite Hl.
        assert (length (l ++ [m]) - 1 = length l)%nat as ->
          by (rewrite length_app; cbn; lia).
        rewrite <- app_assoc. cbn. rewrite list_lookup_middle by done. eauto 10.
    + destruct (messages st) as [|m0 l0] eqn:Hms using rev_ind.
      { rewrite updateBotReply_nil by done. cbn. split; [lia|].
        split; [intros; lia|]. done. }
      clear IHl0. rewrite (updateBotReply_snoc chunk st l0 m0 Hms).
      assert (length (l0 ++ [m0]) - 1 = length l0)%nat as Hlen
        by (rewrite length_app; cbn; lia).
      destruct (is_model (role m0)) eqn:Hm.
      * split; [rewrite !length_app; cbn; lia|]. split.
        -- intros i m Hi. rewrite length_app in Hi; cbn in Hi.
           rewrite !lookup_app_l by lia. done.
        -- intros m. rewrite last_snoc. intros [= <-]. rewrite Hlen.
           eexists. rewrite list_lookup_middle by done. split; [done|].
           cbn. apply is_model_true in Hm.
           repeat split; try done. right. by exists chunk.
      * split; [lia|]. split; [done|].
        intros m. rewrite last_snoc. intros [= <-]. rewrite Hlen.
        exists m0. rewrite list_lookup_middle by done. eauto 10.
Qed.

End StoreFacts.

(** ** The observer contract of the sequencer *)

Section ObserverFacts.

Implicit Types (p : Player (list bool)).


Lemma playing_calls_app c1 c2 :
  playing_calls (c1 ++ c2) = (playing_calls c1 + playing_calls c2)%nat.
Proof. unfold playing_calls. by rewrite filter_app, length_app. Qed.

(** The calls [playNext] makes, and the fragment it starts. *)
Lemma playNext_calls p :
  ∃ fired,
    obs (playNext recorder p) = obs p ++ fired
    ∧ length (played (dom (playNext recorder p)))
      = (length (played (dom p)) + playing_calls fired)%nat
    ∧ fired =
        if isPlaying (aq p) then []
        else match queue (aq p) with
             | [] => [false]
             | h :: _ => if truthy h then [true] else []
             end.
Proof.
  destruct (isPlaying (aq p)) eqn:Hp.
  - rewrite playNext_playing by done. exists []. by rewrite app_nil_r, Nat.add_0_r.
  - pose proof (playNext_not_playing recorder p Hp) as H.
    destruct (queue (aq p)) as [|h rest].
    + rewrite H. exists [false]. cbn. by rewrite Nat.add_0_r.
    + destruct (truthy h).
      * destruct H as (_ & -> & ->). exists [true]. cbn.
        by rewrite length_app.
      * rewrite H. exists []. cbn. by rewrite app_nil_r, Nat.add_0_r.
Qed.

Lemma begins_iff p p' n :
  length (played (dom p')) = (length (played (dom p)) + n)%nat →
  begins p p' = bool_decide (n ≠ 0%nat).
Proof.
  intros H. unfold begins. rewrite H.
  destruct n; cbn.
  - rewrite Nat.add_0_r. apply Nat.ltb_irrefl.
  - apply Nat.ltb_lt. lia.
Qed.

(** The calls made by the handler of a terminal event: its prelude
    leaves a sequencer that is not playing, with the queue untouched. *)
Lemma terminal_calls p p0 p' e :
  match e with Ended _ | Errored _ | PlayRejected _ => True | _ => False end →
  obs p0 = obs p → played (dom p0) = played (dom p) →
  queue (aq p0) = queue (aq p) → isPlaying (aq p0) = false →
  p' = playNext recorder p0 →
  obs p' = obs p ++ expected_calls e p p'
  ∧ length (played (dom p'))
    = (length (played (dom p)) + playing_calls (expected_calls e p p'))%nat.
Proof.
  intros He Ho Hpl Hq Hip ->.
  destruct (playNext_calls p0) as (fired & Hobs & Hlen & Hf).
  rewrite Ho in Hobs. rewrite Hpl in Hlen. rewrite Hip, Hq in Hf.
  assert (expected_calls e p (playNext recorder p0) = fired) as ->; [|done].
  assert (expected_calls e p (playNext recorder p0) =
          if begins p (playNext recorder p0) then [true]
          else if bool_decide (queue (aq p) = []) then [false] else []) as ->
    by (by destruct e).
  rewrite (begins_iff _ _ _ Hlen). subst fired.
  destruct (queue (aq p)) as [|h rest]; [done|].
  by destruct (truthy h).
Qed.

Lemma step_calls e p p' :
  audio_step recorder e p = Some p' →
  obs p' = obs p ++ expected_calls e p p'
  ∧ length (played (dom p'))
    = (length (played (dom p)) + playing_calls (expected_calls e p p'))%nat.
Proof.
  destruct e as [s|i|i|i|]; unfold audio_step.
  - intros [= <-]. unfold enqueue.
    set (p0 := with_aq _ (initAudioContext p)).
    assert (obs p0 = obs p ∧ played (dom p0) = played (dom p)
            ∧ queue (aq p0) = queue (aq p) ++ [s]
            ∧ isPlaying (aq p0) = isPlaying (aq p)) as (Ho & Hpl & Hq & Hip).
    { unfold p0, initAudioContext. by destruct (audioContext (aq p)). }
    destruct (playNext_calls p0) as (fired & Hobs & Hlen & Hf).
    rewrite Ho in Hobs. rewrite Hpl in Hlen. rewrite Hip, Hq in Hf.
    unfold expected_calls. rewrite (begins_iff _ _ _ Hlen). subst fired.
    destruct (isPlaying (aq p)); [done|].
    destruct (queue (aq p)) as [|h rest]; cbn in *.
    + by destruct (truthy s).
    + by destruct (truthy h).
  - destruct (is_sounding i p); [|done]. intros [= <-].
    by apply (terminal_calls p
      (with_aq (set_currentAudio None)
         (with_aq (set_isPlaying false) (silence i p)))).
  - destruct (is_sounding i p); [|done]. intros [= <-].
    by apply (terminal_calls p
      (with_aq (set_currentAudio None)
         (with_aq (set_isPlaying false)
            (console_error (AudioPlaybackError i) (silence i p))))).
  - destruct (is_sounding i p); [|done]. intros [= <-].
    by apply (terminal_calls p
      (with_aq (set_currentAudio None)
         (with_aq (set_isPlaying false)
            (with_aq (set_sourceNode None)
               (console_error (FailedToPlayAudio i) (silence i p)))))).
  - intros [= <-]. unfold clear, expected_calls. cbn.
    destruct (currentAudio (aq p)); cbn; by rewrite Nat.add_0_r.
Qed.

Lemma run_playing_calls es p :
  audio_run recorder es (fresh []) = Some p →
  playing_calls (obs p) = length (played (dom p)).
Proof.
  apply (audio_run_ind recorder
           (fun _ p => playing_calls (obs p) = length (played (dom p)))).
  - done.
  - intros _ e p1 p2 IH Hs. apply step_calls in Hs as [-> ->].
    by rewrite playing_calls_app, IH.
Qed.

(** C2, as the code has it.  Along every run the callback is called with
    "playing" once for each fragment that begins playback, also for the
    fragments that follow one another without an idle period, so the
    number of "playing" calls is the number of fragments started; it is
    called with "idle" on every [clear()] and each time a terminal event
    finds the queue empty, and not otherwise. *)
Theorem callback_once_per_fragment (es : list AudioEvent) (e : AudioEvent) p p' :
  audio_run recorder es (fresh []) = Some p →
  audio_step recorder e p = Some p' →
  obs p' = obs p ++ expected_calls e p p'
  ∧ playing_calls (obs p') = length (played (dom p')).
Proof.
  intros Hrun Hs. pose proof (run_playing_calls es p Hrun) as Hn.
  apply step_calls in Hs as [Ho Hl]. split; [done|].
  by rewrite Ho, playing_calls_app, Hn, Hl.
Qed.

(** C2 fails as stated: the second of two fragments played back to back
    calls the callback with "playing" again, and a [clear()] on an idle
    sequencer calls it with "idle" although nothing changed. *)
Lemma callback_refired_between_fragments :
  (∃ p, audio_run recorder [Enqueue frag_A; Enqueue frag_B; Ended 0%nat]
                  (fresh []) = Some p
        ∧ obs p = [true; true]
        ∧ alternates false (obs p) = false)
  ∧ (∃ p, audio_run recorder [Clear] (fresh []) = Some p
          ∧ obs p = [false]
          ∧ alternates false (obs p) = false).
Proof. split; eexists; (split; [reflexivity|]); split; reflexivity. Qed.

Lemma callback_once_per_fragment_witness :
  ∃ p p',
    audio_run recorder [Enqueue frag_A; Enqueue frag_B] (fresh []) = Some p
    ∧ audio_step recorder (Ended 0%nat) p = Some p'
    ∧ obs p' = obs p ++ expected_calls (Ended 0%nat) p p'
    ∧ playing_calls (obs p') = length (played (dom p')).
Proof.
  eexists _, _. split; [reflexivity|]. split; [reflexivity|].
  apply (callback_once_per_fragment [Enqueue frag_A; Enqueue frag_B]
           (Ended 0%nat)); reflexivity.
Defined.



End ObserverFacts.

(** ** Strings and arrays *)

Section JsFacts.

Implicit Types (s t : JsString) (arr : list JsString).

Lemma startsWith_app p s : startsWith (p ++ s) p = true.
Proof.
  induction p as [|c p IH]; [done|]. cbn. by rewrite N.eqb_refl, IH.
Qed.

Lemma endsWith_app p s : endsWith (p ++ s) s = true.
Proof. unfold endsWith. rewrite rev_app_distr. apply startsWith_app. Qed.

(** The text between a prefix [a] and a suffix [b]. *)
Lemma substring_middle a t b :
  substring (a ++ t ++ b) (Z.of_nat (length a))
            (Z.of_nat (length (a ++ t ++ b)) - Z.of_nat (length b)) = t.
Proof.
  unfold substring, clamp. rewrite !length_app.
  set (la := length a). set (lt := length t). set (lb := length b).
  rewrite !Nat2Z.inj_add.
  match goal with
  | |- take (Z.to_nat (?hi - ?lo)) (drop (Z.to_nat ?lo') _) = _ =>
      assert (lo = Z.of_nat la) as -> by lia;
      assert (hi - Z.of_nat la = Z.of_nat lt) as -> by lia
  end.
  rewrite !Nat2Z.id. subst la lt.
  by rewrite drop_app_length, take_app_length.
Qed.

Lemma classify_user_frame text :
  Page.classify (user_frame text) = UserEcho text.
Proof.
  unfold Page.classify, user_frame.
  rewrite startsWith_app. rewrite app_assoc, endsWith_app, <- app_assoc. cbn [andb].
  f_equal.
  replace 6 with (Z.of_nat (length (js "[USER:"))) by done.
  replace 1 with (Z.of_nat (length (js "]"))) by done.
  apply substring_middle.
Qed.

Lemma indexOf_absent arr x : x ∉ arr → indexOf arr x = -1.
Proof.
  induction arr as [|y arr IH]; [done|].
  intros [Hne Hnin]%not_elem_of_cons. cbn. unfold Js.eqb.
  rewrite bool_decide_false by congruence. by rewrite IH.
Qed.

Lemma indexOf_first l1 l2 x :
  x ∉ l1 → indexOf (l1 ++ x :: l2) x = Z.of_nat (length l1).
Proof.
  induction l1 as [|y l1 IH]; cbn.
  - intros _. unfold Js.eqb. by rewrite bool_decide_true.
  - intros [Hne Hnin]%not_elem_of_cons. unfold Js.eqb.
    rewrite bool_decide_false by congruence. rewrite IH by done.
    destruct (Z.of_nat (length l1) =? -1) eqn:E; lia.
Qed.

Lemma splice1_first l1 l2 (x : JsString) :
  splice1 (l1 ++ x :: l2) (Z.of_nat (length l1)) = l1 ++ l2.
Proof.
  unfold splice1. rewrite Nat2Z.id.
  rewrite take_app_length.
  replace (l1 ++ x :: l2) with ((l1 ++ [x]) ++ l2) by (by rewrite <- app_assoc).
  by rewrite drop_app_length' by (rewrite length_app; cbn; lia).
Qed.

End JsFacts.

(** ** The page *)

Section PageFacts.

Import Page.

Variable roomId : JsString.

Implicit Types (w : World) (text : JsString) (now : Z).

(** *** The send gateway *)

Lemma submit_accepted text now w :
  ws_state w = Some OPEN →
  truthy (trim text) = true →
  COOLDOWN_MS ≤ now - lastSendTime (chat (obs w)) →
  transcript (submit text now w)
    = transcript w ++ [mkChatMessage (uuid_next (net (obs w))) user text now]
  ∧ sent_on_wire (submit text now w) = sent_on_wire w ++ [text]
  ∧ pending (submit text now w) = pending w ++ [text]
  ∧ lastSendTime (chat (obs (submit text now w))) = now
  ∧ ws_state (submit text now w) = Some OPEN
  ∧ uuid_next (net (obs (submit text now w))) = S (uuid_next (net (obs w))).
Proof.
  intros Hws Htrim Hcool.
  destruct w as [q d [st [stat ws rcv sent] [inp last cool tms] [wr uid]]].
  unfold ws_state in Hws; cbn in Hws, Hcool. subst ws.
  apply Z.ltb_ge in Hcool.
  unfold submit, handleSend, setInputText, sendMessage,
    transcript, sent_on_wire, pending, ws_state.
  cbn -[Z.ltb Z.sub trim]. rewrite Hcool, Htrim. cbn -[Z.ltb Z.sub trim].
  rewrite ?Htrim. done.
Qed.

Lemma submit_in_cooldown text now w :
  now - lastSendTime (chat (obs w)) < COOLDOWN_MS →
  transcript (submit text now w) = transcript w
  ∧ sent_on_wire (submit text now w) = sent_on_wire w
  ∧ pending (submit text now w) = pending w
  ∧ isCooldown (chat (obs (submit text now w))) = true
  ∧ timers (chat (obs (submit text now w)))
    = timers (chat (obs w)) ++ [lastSendTime (chat (obs w)) + COOLDOWN_MS]
  ∧ lastSendTime (chat (obs (submit text now w))) = lastSendTime (chat (obs w))
  ∧ ws_state (submit text now w) = ws_state w
  ∧ uuid_next (net (obs (submit text now w))) = uuid_next (net (obs w)).
Proof.
  intros Hcool. apply Z.ltb_lt in Hcool.
  destruct w as [q d [st [stat ws rcv sent] [inp last cool tms] [wr uid]]].
  cbn in Hcool.
  unfold submit, handleSend, setInputText,
    transcript, sent_on_wire, pending, ws_state.
  cbn -[Z.ltb Z.sub trim]. rewrite Hcool. cbn -[Z.sub].
  repeat split; try done. do 2 f_equal. lia.
Qed.

Lemma submit_blank text now w :
  truthy (trim text) = false →
  transcript (submit text now w) = transcript w
  ∧ sent_on_wire (submit text now w) = sent_on_wire w
  ∧ pending (submit text now w) = pending w.
Proof.
  intros Htrim.
  destruct w as [q d [st [stat ws rcv sent] [inp last cool tms] [wr uid]]].
  unfold submit, handleSend, setInputText,
    transcript, sent_on_wire, pending.
  cbn -[Z.ltb Z.sub trim]. rewrite Htrim.
  by destruct (now - last <? COOLDOWN_MS).
Qed.



(** *** Echo suppression *)

Lemma echo_matched text now w l1 l2 :
  pending w = l1 ++ text :: l2 → text ∉ l1 →
  transcript (ws_onmessage (user_frame text) now w) = transcript w
  ∧ pending (ws_onmessage (user_frame text) now w) = l1 ++ l2.
Proof.
  intros Hp Hnin. unfold ws_onmessage. rewrite classify_user_frame.
  unfold pending in Hp. rewrite Hp, indexOf_first by done.
  assert ((Z.of_nat (length l1) =? -1) = false) as ->
    by (apply Z.eqb_neq; lia).
  cbn [negb]. unfold transcript, pending. cbn.
  by rewrite Hp, splice1_first.
Qed.

Lemma echo_unmatched text now w :
  text ∉ pending w →
  transcript (ws_onmessage (user_frame text) now w)
    = transcript w
        ++ [mkChatMessage (uuid_next (net (obs w))) other_user text now]
  ∧ pending (ws_onmessage (user_frame text) now w) = pending w.
Proof.
  intros Hnin. unfold ws_onmessage. rewrite classify_user_frame.
  unfold pending in Hnin. rewrite indexOf_absent by done. done.
Qed.

(** C5.  An accepted [submit(text)] appends the local entry, records
    [text] as pending and sends it; the frame [[USER:text]] that follows
    adds no transcript entry and removes one pending record, the first
    that equals [text].  Without a pending record equal to [text] the same
    frame appends exactly one [other-user] entry whose content is [text].
    In general the match removes the first equal record and no other. *)
Theorem echo_is_suppressed text (now now' : Z) w :
  (ws_state w = Some OPEN → truthy (trim text) = true →
   COOLDOWN_MS ≤ now - lastSendTime (chat (obs w)) →
   let w1 := submit text now w in
   let w2 := ws_onmessage (user_frame text) now' w1 in
   transcript w1
     = transcript w ++ [mkChatMessage (uuid_next (net (obs w))) user text now]
   ∧ transcript w2 = transcript w1
   ∧ (∃ l1 l2, pending w1 = l1 ++ text :: l2 ∧ (text ∉ l1)
               ∧ pending w2 = l1 ++ l2))
  ∧ (text ∉ pending w →
     transcript (ws_onmessage (user_frame text) now' w)
       = transcript w
           ++ [mkChatMessage (uuid_next (net (obs w))) other_user text now']
     ∧ pending (ws_onmessage (user_frame text) now' w) = pending w)
  ∧ (∀ l1 l2, pending w = l1 ++ text :: l2 → text ∉ l1 →
     transcript (ws_onmessage (user_frame text) now' w) = transcript w
     ∧ pending (ws_onmessage (user_frame text) now' w) = l1 ++ l2).
Proof.
  split; [|split].
  - intros Hws Htrim Hcool w1 w2.
    destruct (submit_accepted text now w Hws Htrim Hcool) as (Ht & _ & Hp & _).
    fold w1 in Ht, Hp. split; [done|].
    assert (text ∈ pending w1) as Hin
      by (rewrite Hp; apply elem_of_app; right; left).
    apply list_elem_of_split_l in Hin as (l1 & l2 & Hsplit & Hnin).
    destruct (echo_matched text now' w1 l1 l2 Hsplit Hnin) as [Ht2 Hp2].
    split; [done|]. by exists l1, l2.
  - apply echo_unmatched.
  - intros l1 l2. apply echo_matched.
Qed.

(** *** Assistant replies *)

Lemma text_token_opens text now w :
  Page.classify text = TextToken text →
  isReceivingBotMessage (hook (obs w)) = false →
  transcript (ws_onmessage text now w)
    = transcript w ++ [mkChatMessage (uuid_next (net (obs w))) model text now]
  ∧ isReceivingBotMessage (hook (obs (ws_onmessage text now w))) = true.
Proof.
  intros Hcl Hrcv. unfold ws_onmessage. rewrite Hcl, Hrcv. cbn [negb].
  unfold getIsPlaying, transcript. cbn.
  by destruct (isPlaying (aq w)).
Qed.

Lemma text_token_extends text now w l m :
  Page.classify text = TextToken text →
  isReceivingBotMessage (hook (obs w)) = true →
  transcript w = l ++ [m] → role m = model →
  transcript (ws_onmessage text now w)
    = l ++ [mkChatMessage (id m) model (content m ++ text) (timestamp m)]
  ∧ isReceivingBotMessage (hook (obs (ws_onmessage text now w))) = true.
Proof.
  intros Hcl Hrcv Hl Hm. unfold ws_onmessage. rewrite Hcl, Hrcv. cbn [negb].
  unfold transcript in *. cbn.
  by rewrite (updateBotReply_snoc text _ l m Hl), Hm.
Qed.

Lemma stream_end_keeps_transcript now w :
  transcript (ws_onmessage (js "[EOF]") now w) = transcript w
  ∧ isReceivingBotMessage (hook (obs (ws_onmessage (js "[EOF]") now w)))
    = false.
Proof.
  unfold ws_onmessage.
  change (Page.classify (js "[EOF]")) with StreamEnd. unfold getIsPlaying.
  cbn. by destruct (isPlaying (aq w)).
Qed.

(** C6.  With no assistant turn open, the frames "Hi", " there" and
    [[EOF]] add exactly one entry to the transcript: a [model] entry
    whose content is "Hi there". *)
Theorem hi_there_is_one_entry (now1 now2 now3 : Z) w :
  isReceivingBotMessage (hook (obs w)) = false →
  let w' := ws_onmessage (js "[EOF]") now3
              (ws_onmessage (js " there") now2
                 (ws_onmessage (js "Hi") now1 w)) in
  transcript w'
    = transcript w
        ++ [mkChatMessage (uuid_next (net (obs w))) model (js "Hi there") now1]
  ∧ isReceivingBotMessage (hook (obs w')) = false.
Proof.
  intros Hrcv w'. subst w'.
  destruct (text_token_opens (js "Hi") now1 w eq_refl Hrcv) as [H1 R1].
  destruct (text_token_extends (js " there") now2 _ _ _ eq_refl R1 H1 eq_refl)
    as [H2 _].
  destruct (stream_end_keeps_transcript now3
              (ws_onmessage (js " there") now2 (ws_onmessage (js "Hi") now1 w)))
    as [H3 R3].
  by rewrite H3, H2.
Qed.

Lemma hi_there_is_one_entry_witness :
  let w := set_ready OPEN initial in
  let w' := ws_onmessage (js "[EOF]") 3
              (ws_onmessage (js " there") 2 (ws_onmessage (js "Hi") 1 w)) in
  transcript w' = transcript w ++ [mkChatMessage 0 model (js "Hi there") 1]
  ∧ isReceivingBotMessage (hook (obs w')) = false.
Proof.
  apply (hi_there_is_one_entry 1 2 3 (set_ready OPEN initial)). reflexivity.
Defined.

(** C4 on the frames "Hi", [[USER:yo]], " there": the third frame is a
    text token, and its chunk reaches no transcript entry.  The turn
    opened by "Hi" set [isReceivingBotMessage], so " there" goes to
    [updateBotReply], which does nothing because the tail is now the
    [other-user] entry. *)
Theorem text_token_lost_behind_other_entry :
  ∃ w,
    run (js "star")
      [(1, HandleConnect); (2, WsOpen); (3, WsMessage (js "Hi"));
       (4, WsMessage (js "[USER:yo]")); (5, WsMessage (js " there"))]
      initial = Some w
    ∧ Page.classify (js " there") = TextToken (js " there")
    ∧ map (fun m => (role m, content m)) (transcript w)
      = [(system, connected_text (js "star")); (model, js "Hi");
         (other_user, js "yo")].
Proof. eexists. split; [reflexivity|]. by vm_compute. Qed.

(** *** Connection *)


End PageFacts.

(** ** The presentation state *)

Section PresentationFacts.

Import Page.

Variable roomId : JsString.

Implicit Types (w : World) (now : Z).












End PresentationFacts.

(** ** Scenarios *)

Section Scenarios.

Import Page.





(** An empty audio payload queued behind a playing fragment: when the
    fragment ends, [playNext] shifts the empty payload and returns without
    a call, so the page keeps presenting [Speaking] while nothing plays. *)
Lemma empty_payload_leaves_speaking :
  ∃ w,
    run (js "star")
      [(1, HandleConnect); (2, WsOpen); (3, WsMessage (js "[AUDIO:QUJD]"));
       (4, WsMessage (js "[AUDIO:]")); (5, AudioEnded 0%nat)]
      initial = Some w
    ∧ isPlaying (aq w) = false
    ∧ sounding (dom w) = []
    ∧ presentation w = Speaking.
Proof. eexists. split; [reflexivity|]. by vm_compute. Qed.

Lemma echo_is_suppressed_witness :
  let w := set_ready OPEN initial in
  let w1 := submit (js "hello") 5000 w in
  let w2 := ws_onmessage (js "[USER:hello]") 5001 w1 in
  (transcript w1 = transcript w ++ [mkChatMessage 0 user (js "hello") 5000]
   ∧ transcript w2 = transcript w1
   ∧ (∃ l1 l2, pending w1 = l1 ++ js "hello" :: l2 ∧ (js "hello" ∉ l1)
               ∧ pending w2 = l1 ++ l2))
  ∧ (transcript (ws_onmessage (js "[USER:hello]") 5001 w)
       = transcript w ++ [mkChatMessage 0 other_user (js "hello") 5001]
     ∧ pending (ws_onmessage (js "[USER:hello]") 5001 w) = pending w).
Proof.
  destruct (echo_is_suppressed (js "hello") 5000 5001 (set_ready OPEN initial))
    as (Hsubmit & Hremote & _).
  split.
  - apply Hsubmit; [reflexivity | reflexivity | by vm_compute].
  - apply Hremote. intros Hin. by apply elem_of_nil in Hin.
Defined.

Lemma only_model_tail_is_extended_witness :
  let greeting := mkChatMessage 0 system (js "hi") 1 in
  let reply := mkChatMessage 1 model (js "Hel") 2 in
  let st := mkLiveStore [greeting; reply] Idle 1 in
  messages (Store.updateBotReply (js "lo") st)
    = [greeting; mkChatMessage 1 model (js "Hello") 2]
  ∧ messages (Store.updateBotReply (js "lo") (mkLiveStore [greeting] Idle 1))
    = [greeting].
Proof.
  split.
  - destruct (only_model_tail_is_extended (Store.OpUpdateBotReply (js "lo"))
                (mkLiveStore [mkChatMessage 0 system (js "hi") 1;
                              mkChatMessage 1 model (js "Hel") 2] Idle 1))
      as (_ & Hext & _).
    apply (Hext (js "lo") [mkChatMessage 0 system (js "hi") 1]
                (mkChatMessage 1 model (js "Hel") 2)); reflexivity.
  - destruct (only_model_tail_is_extended (Store.OpUpdateBotReply (js "lo"))
                (mkLiveStore [mkChatMessage 0 system (js "hi") 1] Idle 1))
      as (Hsame & _).
    apply (Hsame (js "lo")); [reflexivity|].
    right. eexists. split; [reflexivity|]. done.
Defined.

End Scenarios.

(** ** More on the sequencer *)

Section SequencerMore.

Context {Obs : Type}.
Variable cb : option (bool → Obs → Obs).

Implicit Types (p : Player Obs).


Lemma enqueue_playing s p :
  isPlaying (aq p) = true →
  queue (aq (enqueue cb s p)) = queue (aq p) ++ [s]
  ∧ isPlaying (aq (enqueue cb s p)) = true
  ∧ currentAudio (aq (enqueue cb s p)) = currentAudio (aq p)
  ∧ audioContext (aq (enqueue cb s p)) = true
  ∧ dom (enqueue cb s p) = dom p
  ∧ obs (enqueue cb s p) = obs p.
Proof.
  intros Hp. unfold enqueue. rewrite playNext_playing.
  - unfold initAudioContext. by destruct (audioContext (aq p)) eqn:E.
  - unfold initAudioContext. by destruct (audioContext (aq p)).
Qed.

Lemma enqueue_all_playing (ps : list JsString) p :
  isPlaying (aq p) = true →
  ∃ p',
    audio_run cb (map Enqueue ps) p = Some p'
    ∧ queue (aq p') = queue (aq p) ++ ps
    ∧ isPlaying (aq p') = true
    ∧ currentAudio (aq p') = currentAudio (aq p)
    ∧ dom p' = dom p
    ∧ obs p' = obs p.
Proof.
  revert p. induction ps as [|s ps IH]; intros p Hp.
  - exists p. cbn. by rewrite app_nil_r.
  - destruct (enqueue_playing s p Hp) as (Hq & Hp1 & Hca & _ & Hd & Ho).
    destruct (IH (enqueue cb s p) Hp1) as (p' & Hrun & Hq' & Hp' & Hca' & Hd' & Ho').
    exists p'. cbn. rewrite Hrun, Hq', Hq, Hca', Hca, Hd', Hd, Ho', Ho.
    by rewrite <- app_assoc.
Qed.

(** While a fragment plays, any number of [enqueue] calls only extends the
    queue, in call order: the playing element is not interrupted, nothing
    new is started, and the callback is not called. *)
Theorem enqueue_while_playing_only_queues (ps : list JsString) p :
  isPlaying (aq p) = true →
  ∃ p',
    audio_run cb (map Enqueue ps) p = Some p'
    ∧ queue (aq p') = queue (aq p) ++ ps
    ∧ isPlaying (aq p') = true
    ∧ currentAudio (aq p') = currentAudio (aq p)
    ∧ dom p' = dom p
    ∧ obs p' = obs p.
Proof. apply enqueue_all_playing. Qed.

(** An empty payload at the head of the queue stalls the sequencer.  When
    the playing element ends, [playNext] shifts the empty payload and
    returns: nothing plays, the callback is not called, and the fragments
    behind it stay queued until [enqueue] is called again. *)
Theorem empty_payload_stalls (el : HTMLAudioElement) (rest : list JsString) p :
  coherent p →
  currentAudio (aq p) = Some el →
  queue (aq p) = [] :: rest →
  ∃ p',
    audio_step cb (Ended (el_id el)) p = Some p'
    ∧ isPlaying (aq p') = false
    ∧ currentAudio (aq p') = None
    ∧ sounding (dom p') = []
    ∧ queue (aq p') = rest
    ∧ played (dom p') = played (dom p)
    ∧ obs p' = obs p.
Proof.
  intros Hc Hca Hq. unfold coherent in Hc. rewrite Hca in Hc.
  destruct Hc as [Hip Hso].
  assert (is_sounding (el_id el) p = true) as Hin
    by (unfold is_sounding; rewrite Hso; apply bool_decide_eq_true; left).
  eexists. unfold audio_step. rewrite Hin. split; [reflexivity|].
  unfold onended.
  set (p0 := with_aq (set_currentAudio None) _).
  assert (isPlaying (aq p0) = false) as Hp0 by done.
  pose proof (playNext_not_playing cb p0 Hp0) as H.
  assert (queue (aq p0) = [] :: rest) as Hq0 by (by cbn).
  rewrite Hq0 in H. cbn [truthy] in H. rewrite H. cbn.
  rewrite Hso, filter_cons, decide_False by (intros ?; congruence). done.
Qed.

(** The sequencer never waits with work queued: along every run whose
    payloads are all non-empty, a sequencer that is not playing has an
    empty queue. *)
Theorem idle_means_empty_queue (o : Obs) (es : list AudioEvent) p :
  audio_run cb es (fresh o) = Some p →
  Forall (fun s => truthy s = true) (arrivals es) →
  isPlaying (aq p) = false →
  queue (aq p) = [].
Proof.
  intros Hrun.
  cut (Forall (fun s => truthy s = true) (arrivals es) →
       Forall (fun s => truthy s = true) (queue (aq p))
       ∧ (isPlaying (aq p) = false → queue (aq p) = [])); [tauto|].
  revert es p Hrun.
  apply (audio_run_ind cb (fun es p =>
    Forall (fun s => truthy s = true) (arrivals es) →
    Forall (fun s => truthy s = true) (queue (aq p))
    ∧ (isPlaying (aq p) = false → queue (aq p) = []))).
  { intros _. by cbn. }
  intros es e p p' IH Hstep Harr. rewrite arrivals_app in Harr.
  apply Forall_app in Harr as [Harr He]. destruct (IH Harr) as [Hq Hidle].
  assert (∀ p0, queue (aq p0) = queue (aq p) → isPlaying (aq p0) = false →
            Forall (fun s => truthy s = true) (queue (aq (playNext cb p0)))
            ∧ (isPlaying (aq (playNext cb p0)) = false →
               queue (aq (playNext cb p0)) = [])) as Hterm.
  { intros p0 Hq0 Hp0. pose proof (playNext_not_playing cb p0 Hp0) as H.
    rewrite Hq0 in H. destruct (queue (aq p)) as [|h rest] eqn:Hqe.
    - rewrite H, notify_aq, Hq0. done.
    - apply Forall_cons in Hq as [Hh Hrest]. rewrite Hh in H.
      destruct H as (-> & _). cbn. done. }
  destruct e as [s|i|i|i|]; unfold audio_step in Hstep.
  - injection Hstep as <-. cbn in He.
    pose proof (proj1 (Forall_singleton _ _) He) as Hs. cbn in Hs.
    destruct (isPlaying (aq p)) eqn:Hp.
    + destruct (enqueue_playing s p Hp) as (-> & -> & _). split; [|done].
      apply Forall_app. by split.
    + unfold enqueue. set (p0 := with_aq _ (initAudioContext p)).
      assert (queue (aq p0) = [s] ∧ isPlaying (aq p0) = false) as [Hq0 Hp0].
      { unfold p0, initAudioContext.
        destruct (audioContext (aq p)); cbn; by rewrite Hidle. }
      pose proof (playNext_not_playing cb p0 Hp0) as H.
      rewrite Hq0, Hs in H. destruct H as (-> & _). cbn. done.
  - destruct (is_sounding i p); [|done]. injection Hstep as <-.
    by apply Hterm.
  - destruct (is_sounding i p); [|done]. injection Hstep as <-.
    by apply Hterm.
  - destruct (is_sounding i p); [|done]. injection Hstep as <-.
    by apply Hterm.
  - injection Hstep as <-. unfold clear. rewrite notify_aq. cbn.
    by destruct (currentAudio (aq p)).
Qed.

Lemma playNext_console p : console (dom (playNext cb p)) = console (dom p).
Proof.
  destruct (isPlaying (aq p)) eqn:Hp.
  - by rewrite playNext_playing.
  - pose proof (playNext_not_playing cb p Hp) as H.
    destruct (queue (aq p)) as [|h rest].
    + by rewrite H, notify_dom.
    + destruct (truthy h).
      * by destruct H as (_ & -> & _).
      * by rewrite H.
Qed.

(** Every failure is logged once and nothing else is: after a run, the
    error console holds one entry per [onerror] event and one per rejected
    [play()], in the order of the events, each naming its element; natural
    endings, [enqueue] and [clear] log nothing. *)
Theorem console_holds_the_failures (o : Obs) (es : list AudioEvent) p :
  audio_run cb es (fresh o) = Some p →
  console (dom p) = reports es.
Proof.
  revert es p. apply (audio_run_ind cb (fun es p => console (dom p) = reports es)).
  { done. }
  intros es e p p' IH Hstep. unfold reports in *. rewrite flat_map_app. cbn.
  rewrite app_nil_r, <- IH.
  destruct e as [s|i|i|i|]; unfold audio_step in Hstep.
  - injection Hstep as <-. unfold enqueue. rewrite playNext_console, app_nil_r.
    unfold initAudioContext. by destruct (audioContext (aq p)).
  - destruct (is_sounding i p); [|done]. injection Hstep as <-.
    unfold onended. by rewrite playNext_console, app_nil_r.
  - destruct (is_sounding i p); [|done]. injection Hstep as <-.
    unfold onerror. by rewrite playNext_console.
  - destruct (is_sounding i p); [|done]. injection Hstep as <-.
    unfold play_catch. by rewrite playNext_console.
  - injection Hstep as <-. unfold clear. rewrite notify_dom, app_nil_r. cbn.
    by destruct (currentAudio (aq p)).
Qed.

Lemma playNext_audioContext p :
  audioContext (aq (playNext cb p)) = audioContext (aq p).
Proof.
  destruct (isPlaying (aq p)) eqn:Hp.
  - by rewrite playNext_playing.
  - pose proof (playNext_not_playing cb p Hp) as H.
    destruct (queue (aq p)) as [|h rest].
    + by rewrite H, notify_aq.
    + destruct (truthy h).
      * by destruct H as (-> & _).
      * by rewrite H.
Qed.

(** The spectrum is available exactly while a fragment plays: after any
    run, [getByteFrequencyData] returns the analyser's reading when
    [isPlaying] is set and [null] otherwise.  The analyser cannot be missing
    while something plays, because every [enqueue] creates it first. *)
Theorem spectrum_iff_playing (o : Obs) (es : list AudioEvent)
    (reading : list N) p :
  audio_run cb es (fresh o) = Some p →
  getByteFrequencyData reading p
  = if isPlaying (aq p) then Some reading else None.
Proof.
  intros Hrun.
  cut (audioContext (aq p) = false →
       isPlaying (aq p) = false ∧ queue (aq p) = []).
  { intros H. unfold getByteFrequencyData.
    destruct (audioContext (aq p)); cbn.
    - by destruct (isPlaying (aq p)).
    - by destruct H as [-> _]. }
  revert es p Hrun.
  apply (audio_run_ind cb (fun _ p =>
    audioContext (aq p) = false →
    isPlaying (aq p) = false ∧ queue (aq p) = [])).
  { done. }
  intros es e p p' IH Hstep.
  assert (∀ p0, audioContext (aq p0) = audioContext (aq p) →
            queue (aq p0) = queue (aq p) → isPlaying (aq p0) = false →
            audioContext (aq (playNext cb p0)) = false →
            isPlaying (aq (playNext cb p0)) = false
            ∧ queue (aq (playNext cb p0)) = []) as Hterm.
  { intros p0 Hac Hq0 Hp0. rewrite playNext_audioContext, Hac. intros Hno.
    destruct (IH Hno) as [_ Hq].
    pose proof (playNext_not_playing cb p0 Hp0) as H. rewrite Hq0, Hq in H.
    by rewrite H, notify_aq, Hq0, Hq. }
  destruct e as [s|i|i|i|]; unfold audio_step in Hstep.
  - injection Hstep as <-. unfold enqueue. rewrite playNext_audioContext.
    unfold initAudioContext. by destruct (audioContext (aq p)) eqn:E; cbn; rewrite ?E.
  - destruct (is_sounding i p); [|done]. injection Hstep as <-.
    by apply Hterm.
  - destruct (is_sounding i p); [|done]. injection Hstep as <-.
    by apply Hterm.
  - destruct (is_sounding i p); [|done]. injection Hstep as <-.
    by apply Hterm.
  - injection Hstep as <-. unfold clear. rewrite notify_aq. cbn.
    by destruct (currentAudio (aq p)).
Qed.

End SequencerMore.

(** ** Playing a whole queue *)

Section DrainFacts.

Implicit Types (p : Player (list bool)).

Lemma audio_run_app {Obs : Type} (cb : option (bool → Obs → Obs))
    (es1 es2 : list AudioEvent) (p : Player Obs) :
  audio_run cb (es1 ++ es2) p =
  match audio_run cb es1 p with
  | Some p' => audio_run cb es2 p'
  | None => None
  end.
Proof.
  revert p. induction es1 as [|e es1 IH]; intros p; cbn; [done|].
  destruct (audio_step cb e p); [apply IH|done].
Qed.

(** The natural end of the sounding element [k], on a sequencer that plays. *)
Lemma ended_advances k p :
  isPlaying (aq p) = true → sounding (dom p) = [k] →
  ∃ p1,
    audio_step recorder (Ended k) p = Some p1
    ∧ console (dom p1) = console (dom p)
    ∧ match queue (aq p) with
      | [] =>
          isPlaying (aq p1) = false ∧ currentAudio (aq p1) = None
          ∧ queue (aq p1) = [] ∧ sounding (dom p1) = []
          ∧ played (dom p1) = played (dom p)
          ∧ obs p1 = obs p ++ [false]
      | h :: rest =>
          truthy h = true →
          isPlaying (aq p1) = true ∧ queue (aq p1) = rest
          ∧ sounding (dom p1) = [length (played (dom p))]
          ∧ played (dom p1)
            = played (dom p) ++ [mkAudio (length (played (dom p))) (data_uri h)]
          ∧ obs p1 = obs p ++ [true]
      end.
Proof.
  intros Hp Hso.
  assert (is_sounding k p = true) as Hin
    by (unfold is_sounding; rewrite Hso; apply bool_decide_eq_true; left).
  eexists. unfold audio_step. rewrite Hin. split; [reflexivity|].
  unfold onended. rewrite playNext_console. split; [done|].
  set (p0 := with_aq (set_currentAudio None) _).
  assert (isPlaying (aq p0) = false) as Hp0 by done.
  assert (queue (aq p0) = queue (aq p)) as Hq0 by done.
  assert (sounding (dom p0) = []) as Hso0.
  { cbn. rewrite Hso, filter_cons, decide_False by (intros ?; congruence). done. }
  pose proof (playNext_not_playing recorder p0 Hp0) as H. rewrite Hq0 in H.
  destruct (queue (aq p)) as [|h rest].
  - rewrite H, !notify_aq, !notify_dom, Hso0. done.
  - intros Hh. rewrite Hh in H. destruct H as (-> & -> & ->).
    rewrite Hso0. done.
Qed.

Lemma drain_from (q : list JsString) :
  ∀ p k,
    Forall (fun s => truthy s = true) q →
    isPlaying (aq p) = true → sounding (dom p) = [k] →
    length (played (dom p)) = S k → queue (aq p) = q →
    ∃ p',
      audio_run recorder (map Ended (seq k (S (length q)))) p = Some p'
      ∧ isPlaying (aq p') = false ∧ currentAudio (aq p') = None
      ∧ queue (aq p') = [] ∧ sounding (dom p') = []
      ∧ map el_src (played (dom p')) = map el_src (played (dom p)) ++ map data_uri q
      ∧ console (dom p') = console (dom p)
      ∧ obs p' = obs p ++ replicate (length q) true ++ [false].
Proof.
  induction q as [|h rest IH]; intros p k Hq Hp Hso Hlen Hqe.
  - destruct (ended_advances k p Hp Hso) as (p1 & Hstep & Hco & H).
    rewrite Hqe in H. destruct H as (? & ? & ? & ? & Hpl & ?).
    exists p1. cbn [length seq map audio_run]. rewrite Hstep, Hpl.
    cbn [map replicate]. by rewrite app_nil_r.
  - apply Forall_cons in Hq as [Hh Hrest].
    destruct (ended_advances k p Hp Hso) as (p1 & Hstep & Hco & H).
    rewrite Hqe in H. destruct (H Hh) as (Hp1 & Hq1 & Hso1 & Hpl1 & Ho1).
    rewrite Hlen in Hso1.
    destruct (IH p1 (S k) Hrest Hp1 Hso1) as (p' & Hrun & ? & ? & ? & ? & Hpl & Hco' & Ho);
      [by rewrite Hpl1, length_app, Hlen; cbn; lia | done |].
    exists p'. cbn [length seq map audio_run]. rewrite Hstep.
    split; [exact Hrun|]. repeat split; try done.
    + rewrite Hpl, Hpl1, map_app. cbn. by rewrite <- app_assoc.
    + by rewrite Hco'.
    + rewrite Ho, Ho1. cbn. by rewrite <- app_assoc.
Qed.

(** Any number of non-empty fragments, enqueued in a row and then left to
    play: each element ends in turn, every fragment is played exactly once
    and in arrival order, no error is logged, the sequencer ends idle, and
    the callback was called with "playing" once per fragment and then once
    with "idle". *)
Theorem whole_queue_plays_in_order (ps : list JsString) :
  ps ≠ [] →
  Forall (fun s => truthy s = true) ps →
  ∃ p,
    audio_run recorder (map Enqueue ps ++ map Ended (seq 0 (length ps)))
              (fresh []) = Some p
    ∧ isPlaying (aq p) = false
    ∧ queue (aq p) = []
    ∧ sounding (dom p) = []
    ∧ map el_src (played (dom p)) = map data_uri ps
    ∧ console (dom p) = []
    ∧ obs p = replicate (length ps) true ++ [false].
Proof.
  intros Hne Hps. destruct ps as [|s rest]; [done|].
  apply Forall_cons in Hps as [Hs Hrest].
  set (p1 := enqueue recorder s (fresh [])).
  assert (isPlaying (aq p1) = true ∧ queue (aq p1) = []
          ∧ sounding (dom p1) = [0%nat]
          ∧ played (dom p1) = [mkAudio 0 (data_uri s)]
          ∧ console (dom p1) = [] ∧ obs p1 = [true])
    as (Hp1 & Hq1 & Hso1 & Hpl1 & Hco1 & Ho1).
  { unfold p1. destruct s as [|c s]; [done|]. by cbn. }
  destruct (enqueue_all_playing recorder rest p1 Hp1)
    as (p2 & Hrun2 & Hq2 & Hp2 & _ & Hd2 & Ho2).
  rewrite Hq1 in Hq2. cbn in Hq2.
  destruct (drain_from rest p2 0%nat Hrest Hp2)
    as (p3 & Hrun3 & ? & ? & ? & ? & Hpl3 & Hco3 & Ho3);
    [by rewrite Hd2 | by rewrite Hd2, Hpl1 | done |].
  exists p3. rewrite audio_run_app. cbn [map audio_run audio_step].
  fold p1. rewrite Hrun2. cbn [length]. split; [exact Hrun3|].
  repeat split; try done.
  - by rewrite Hpl3, Hd2, Hpl1.
  - by rewrite Hco3, Hd2.
  - by rewrite Ho3, Ho2, Ho1.
Qed.

End DrainFacts.

(** ** More on the frames *)

Section FrameFacts.

Import Page.

Implicit Types (msg text payload : JsString).


Lemma classify_text msg text : classify msg = TextToken text → text = msg.
Proof.
  unfold classify. repeat case_match; congruence.
Qed.

(** The end of a turn is the exact message [[EOF]] and nothing else; and
    a message taken as reply text is passed on unchanged. *)
Theorem stream_end_is_exact msg :
  (classify msg = StreamEnd ↔ msg = js "[EOF]")
  ∧ (∀ text, classify msg = TextToken text → text = msg).
Proof.
  split; [|apply classify_text]. split.
  - unfold classify. destruct (_ && _); [done|].
    destruct (startsWith msg _); [done|].
    destruct (Js.eqb msg _) eqn:E; [|done].
    intros _. by apply bool_decide_eq_true in E.
  - by intros ->.
Qed.

(** A user frame without its closing bracket is not a user message: it is
    taken as a chunk of the assistant's reply, brackets included. *)
Theorem unterminated_user_frame_is_text msg :
  startsWith msg (js "[USER:") = true →
  endsWith msg (js "]") = false →
  classify msg = TextToken msg.
Proof.
  intros Hs He. unfold classify. rewrite Hs, He. cbn [andb].
  destruct msg as [|a [|b msg]].
  { by vm_compute in Hs. }
  { change (startsWith [a] (js "[USER:")) with (N.eqb 91 a && false) in Hs.
    by rewrite andb_false_r in Hs. }
  change (startsWith (a :: b :: msg) (js "[USER:"))
    with (N.eqb 91 a && (N.eqb 85 b && startsWith msg (js "SER:"))) in Hs.
  apply andb_true_iff in Hs as [Ea Hs]. apply andb_true_iff in Hs as [Eb _].
  apply N.eqb_eq in Ea, Eb. subst a b.
  assert (startsWith (91%N :: 85%N :: msg) (js "[AUDIO:") = false) as -> by done.
  assert (Js.eqb (91%N :: 85%N :: msg) (js "[EOF]") = false) as ->; [|done].
  unfold Js.eqb. by apply bool_decide_eq_false.
Qed.

End FrameFacts.

(** ** More on the send gateway *)

Section GatewayFacts.

Import Page.

Implicit Types (w : World) (text : JsString) (now : Z).

Lemma trimStart_cases (s : JsString) :
  (trimStart s = [] ∧ Forall (fun c => isWhiteSpace c = true) s)
  ∨ (∃ c t, trimStart s = c :: t ∧ isWhiteSpace c = false ∧ c ∈ s).
Proof.
  induction s as [|c s IH]; [by left|]. cbn.
  destruct (isWhiteSpace c) eqn:Hc.
  - destruct IH as [[-> Hall] | (d & t & -> & Hd & Hin)].
    + left. split; [done|]. by apply Forall_cons.
    + right. exists d, t. repeat split; [done|]. by right.
  - right. exists c, s. repeat split; [done|]. by left.
Qed.

(** A text is blank for [trim] exactly when all its units are white space. *)
Lemma blank_iff (s : JsString) :
  truthy (trim s) = false ↔ Forall (fun c => isWhiteSpace c = true) s.
Proof.
  unfold trim, trimEnd. split.
  - intros Hb.
    destruct (trimStart_cases s) as [[_ Hall] | (c & t & Hs & Hc & _)]; [done|].
    exfalso. rewrite Hs in Hb.
    destruct (trimStart_cases (rev (c :: t)))
      as [[_ Hall] | (d & u & Hr & _)].
    + apply Forall_rev in Hall. rewrite rev_involutive in Hall.
      apply Forall_cons in Hall as [Hc' _]. congruence.
    + rewrite Hr in Hb. cbn [rev] in Hb. by destruct (rev u).
  - intros Hall.
    destruct (trimStart_cases s) as [[-> _] | (c & t & _ & Hc & Hin)]; [done|].
    rewrite Forall_forall in Hall. specialize (Hall c Hin). congruence.
Qed.

(** [sendMessage] takes a text that has a unit which is not white space,
    on an open socket, and sends it as typed, surrounding white space
    included; a text made of white space only is never sent, whatever the
    state of the socket. *)
Theorem only_white_space_is_blank text now w :
  (Forall (fun c => isWhiteSpace c = true) text → sendMessage text now w = w)
  ∧ (ws_state w = Some OPEN →
     Exists (fun c => isWhiteSpace c = false) text →
     transcript (sendMessage text now w)
       = transcript w ++ [mkChatMessage (uuid_next (net (obs w))) user text now]
     ∧ sent_on_wire (sendMessage text now w) = sent_on_wire w ++ [text]
     ∧ pending (sendMessage text now w) = pending w ++ [text]).
Proof.
  split.
  - intros Hall. apply blank_iff in Hall. unfold sendMessage. rewrite Hall.
    by destruct (wsRef (hook (obs w))) as [[]|].
  - intros Hws Hex.
    assert (truthy (trim text) = true) as Ht.
    { destruct (truthy (trim text)) eqn:E; [done|]. apply blank_iff in E.
      apply Exists_exists in Hex as (c & Hin & Hc).
      rewrite Forall_forall in E. specialize (E c Hin). congruence. }
    unfold sendMessage. unfold ws_state in Hws. rewrite Hws, Ht. done.
Qed.

Lemma submit_disconnected text now w :
  ws_state w ≠ Some OPEN →
  truthy (trim text) = true →
  COOLDOWN_MS ≤ now - lastSendTime (chat (obs w)) →
  transcript (submit text now w) = transcript w
  ∧ sent_on_wire (submit text now w) = sent_on_wire w
  ∧ pending (submit text now w) = pending w
  ∧ inputText (chat (obs (submit text now w))) = []
  ∧ lastSendTime (chat (obs (submit text now w))) = now.
Proof.
  intros Hws Htrim Hcool. apply Z.ltb_ge in Hcool.
  destruct w as [q d [st [stat ws rcv sent] [inp last cool tms] [wr uid]]].
  unfold ws_state in Hws. cbn in Hws, Hcool.
  unfold submit, handleSend, setInputText, sendMessage,
    transcript, sent_on_wire, pending.
  cbn -[Z.ltb Z.sub trim]. rewrite Hcool, Htrim. cbn -[Z.ltb Z.sub trim].
  by destruct ws as [[]|].
Qed.

(** A submission made while the socket is not open is lost: nothing is
    added to the transcript, sent or recorded as pending; yet the input is
    emptied and the cooldown starts, as for an accepted submission. *)
Theorem submit_while_disconnected_is_lost text now w :
  ws_state w ≠ Some OPEN →
  truthy (trim text) = true →
  COOLDOWN_MS ≤ now - lastSendTime (chat (obs w)) →
  transcript (submit text now w) = transcript w
  ∧ sent_on_wire (submit text now w) = sent_on_wire w
  ∧ pending (submit text now w) = pending w
  ∧ inputText (chat (obs (submit text now w))) = []
  ∧ lastSendTime (chat (obs (submit text now w))) = now.
Proof. apply submit_disconnected. Qed.

Lemma submit_all_snoc attempts (a : JsString * Z) w :
  submit_all (attempts ++ [a]) w = submit (fst a) (snd a) (submit_all attempts w).
Proof. unfold submit_all. by rewrite fold_left_app. Qed.

(** Rejected submissions do not restart the cooldown.  However many
    submissions are made inside the window, none reaches the transcript,
    the wire or the pending list; the window still ends at the same time,
    and every one of them schedules the indicator to drop at that time. *)
Theorem rejected_submissions_keep_the_window
    (attempts : list (JsString * Z)) w :
  Forall (fun a => snd a - lastSendTime (chat (obs w)) < COOLDOWN_MS) attempts →
  transcript (submit_all attempts w) = transcript w
  ∧ sent_on_wire (submit_all attempts w) = sent_on_wire w
  ∧ pending (submit_all attempts w) = pending w
  ∧ lastSendTime (chat (obs (submit_all attempts w)))
    = lastSendTime (chat (obs w))
  ∧ timers (chat (obs (submit_all attempts w)))
    = timers (chat (obs w))
        ++ replicate (length attempts) (lastSendTime (chat (obs w)) + COOLDOWN_MS)
  ∧ (attempts ≠ [] → isCooldown (chat (obs (submit_all attempts w))) = true).
Proof.
  induction attempts as [|a attempts IH] using rev_ind; intros Hall.
  - cbn. by rewrite app_nil_r.
  - apply Forall_app in Hall as [Hall Ha].
    apply (proj1 (Forall_singleton _ _)) in Ha. cbn beta in Ha.
    destruct (IH Hall) as (Ht & Hw & Hp & Hl & Htm & _).
    rewrite submit_all_snoc. rewrite <- Hl in Ha.
    destruct (submit_in_cooldown (fst a) (snd a) _ Ha)
      as (Ht' & Hw' & Hp' & Hcd & Htm' & Hl' & _).
    rewrite Ht', Hw', Hp', Hl', Htm', Htm, Hl, Ht, Hw, Hp.
    repeat split; try done.
    rewrite length_app, <- app_assoc. cbn.
    by rewrite Nat.add_1_r, replicate_S_end.
Qed.

(** Submitting a text and receiving its echo is a round trip for the
    pending list: afterwards it holds the same records as before (the very
    same list when the text was not pending already), and the transcript
    has gained the local entry only. *)
Theorem echo_round_trip text (now now' : Z) w :
  ws_state w = Some OPEN →
  truthy (trim text) = true →
  COOLDOWN_MS ≤ now - lastSendTime (chat (obs w)) →
  let w' := ws_onmessage (user_frame text) now' (submit text now w) in
  pending w' ≡ₚ pending w
  ∧ (text ∉ pending w → pending w' = pending w)
  ∧ transcript w'
    = transcript w ++ [mkChatMessage (uuid_next (net (obs w))) user text now].
Proof.
  intros Hws Htrim Hcool w'. subst w'.
  destruct (submit_accepted text now w Hws Htrim Hcool) as (Ht & _ & Hp & _).
  destruct (decide (text ∈ pending w)) as [Hin | Hnin].
  - apply list_elem_of_split_l in Hin as (l1 & l2 & Hsplit & Hnin).
    assert (pending (submit text now w) = l1 ++ text :: (l2 ++ [text])) as Hp1
      by (by rewrite Hp, Hsplit, <- app_assoc).
    destruct (echo_matched text now' _ l1 _ Hp1 Hnin) as [Ht2 Hp2].
    rewrite Ht2, Hp2, Hsplit. repeat split; try done.
    + apply Permutation_app_head. symmetry. apply Permutation_cons_append.
    + intros Hno. exfalso. apply Hno. apply elem_of_app. right. left.
  - assert (pending (submit text now w) = pending w ++ text :: []) as Hp1
      by done.
    destruct (echo_matched text now' _ _ _ Hp1 Hnin) as [Ht2 Hp2].
    rewrite Ht2, Hp2, app_nil_r. done.
Qed.

End GatewayFacts.

(** ** More on the page *)

Section ReplyFacts.

Import Page.

Implicit Types (w : World) (text : JsString) (now : Z).

Lemma page_data_eq (a a' : App) :
  page_data a = page_data a' →
  messages (store a) = messages (store a') ∧ hook a = hook a'
  ∧ chat a = chat a' ∧ net a = net a'.
Proof. unfold page_data. by intros [= -> -> -> ->]. Qed.

(** The callback of the hook writes the presentation state and nothing
    else of the page. *)
Lemma playNext_page_data w :
  page_data (obs (playNext (Some playbackCallback) w)) = page_data (obs w).
Proof.
  destruct (isPlaying (aq w)) eqn:Hp.
  - by rewrite playNext_playing.
  - pose proof (playNext_not_playing (Some playbackCallback) w Hp) as H.
    destruct (queue (aq w)) as [|h rest].
    + rewrite H. unfold notify, playbackCallback. cbn.
      by destruct (negb (isReceivingBotMessage (hook (obs w)))).
    + destruct (truthy h).
      * by destruct H as (_ & _ & ->).
      * by rewrite H.
Qed.

Lemma enqueue_page_data s w :
  page_data (obs (enqueue (Some playbackCallback) s w)) = page_data (obs w).
Proof.
  unfold enqueue. rewrite playNext_page_data. unfold initAudioContext.
  by destruct (audioContext (aq w)).
Qed.

Lemma audio_step_page_data e w w' :
  audio_step (Some playbackCallback) e w = Some w' →
  page_data (obs w') = page_data (obs w).
Proof.
  destruct e as [s|i|i|i|]; unfold audio_step.
  - intros [= <-]. apply enqueue_page_data.
  - destruct (is_sounding i w); [|done]. intros [= <-].
    unfold onended. by rewrite playNext_page_data.
  - destruct (is_sounding i w); [|done]. intros [= <-].
    unfold onerror. by rewrite playNext_page_data.
  - destruct (is_sounding i w); [|done]. intros [= <-].
    unfold play_catch. by rewrite playNext_page_data.
  - intros [= <-]. destruct w as [[q ip ca ac sn] d a].
    unfold clear, notify, playbackCallback.
    destruct ca; cbn; by destruct (negb (isReceivingBotMessage (hook a))).
Qed.

Lemma audio_frame_page_data (f : JsString * Z) payload w :
  classify (fst f) = AudioChunk payload →
  transcript (ws_onmessage (fst f) (snd f) w) = transcript w
  ∧ receiving_flag (ws_onmessage (fst f) (snd f) w) = receiving_flag w.
Proof.
  intros Hcl. unfold ws_onmessage. rewrite Hcl.
  destruct (page_data_eq _ _ (enqueue_page_data payload w)) as (Hm & Hh & _).
  unfold transcript, receiving_flag. by rewrite Hm, Hh.
Qed.

Lemma receive_cons (f : JsString * Z) rest w :
  receive (f :: rest) w = receive rest (ws_onmessage (fst f) (snd f) w).
Proof. done. Qed.

Lemma reply_text_cons (f : JsString * Z) rest :
  reply_text (f :: rest)
  = match classify (fst f) with TextToken text => text | _ => [] end
    ++ reply_text rest.
Proof. done. Qed.

(** The frames of an open turn extend its entry: text chunks are appended
    to the content, audio fragments leave the transcript alone. *)
Lemma receive_turn (rest : list (JsString * Z)) :
  ∀ w l m,
    receiving_flag w = true →
    transcript w = l ++ [m] → role m = model →
    Forall turn_frame rest →
    transcript (receive rest w)
      = l ++ [mkChatMessage (id m) model (content m ++ reply_text rest)
                            (timestamp m)]
    ∧ receiving_flag (receive rest w) = true.
Proof.
  induction rest as [|f rest IH]; intros w l m Hflag Hl Hm Hall.
  - cbn. rewrite app_nil_r, Hl. destruct m as [i r c t]. cbn in *. by subst r.
  - apply Forall_cons in Hall as [Hf Hrest]. unfold turn_frame in Hf.
    rewrite receive_cons, reply_text_cons.
    destruct (classify (fst f)) as [| payload | | text] eqn:Hcl; try done.
    + destruct (audio_frame_page_data f payload w Hcl) as [Ht Hfl].
      apply IH; try done; by rewrite ?Ht, ?Hfl.
    + pose proof (classify_text _ _ Hcl) as ->.
      destruct (text_token_extends (fst f) (snd f) w l m Hcl Hflag Hl Hm)
        as [Ht Hfl].
      destruct (IH _ _ _ Hfl Ht eq_refl Hrest) as [Ht' Hfl'].
      rewrite Ht'. cbn [id content timestamp]. by rewrite <- app_assoc.
Qed.

(** A streamed reply of any length.  When no turn is open, a text chunk
    followed by any number of text chunks and audio fragments, and then by
    [[EOF]], adds exactly one [model] entry; its content is the text
    chunks joined in arrival order, its time that of the first chunk; the
    audio fragments in between change nothing in the transcript. *)
Theorem streamed_reply_is_one_entry
    (first : JsString * Z) (rest : list (JsString * Z)) (now : Z) w :
  receiving_flag w = false →
  classify (fst first) = TextToken (fst first) →
  Forall turn_frame rest →
  let w' := ws_onmessage (js "[EOF]") now (receive (first :: rest) w) in
  transcript w'
    = transcript w
        ++ [mkChatMessage (uuid_next (net (obs w))) model
                          (reply_text (first :: rest)) (snd first)]
  ∧ receiving_flag w' = false.
Proof.
  intros Hflag Hfirst Hrest w'. subst w'.
  destruct (text_token_opens (fst first) (snd first) w Hfirst Hflag) as [Ht Hfl].
  destruct (receive_turn rest _ _ _ Hfl Ht eq_refl Hrest) as [Ht' _].
  destruct (stream_end_keeps_transcript now (receive (first :: rest) w))
    as [He Hfe].
  split; [|exact Hfe]. rewrite He, receive_cons, Ht', reply_text_cons.
  by rewrite Hfirst.
Qed.

End ReplyFacts.

(** ** More on the transcript *)

Section TranscriptFacts.

Import Store.

Implicit Types (st : LiveStore) (m : ChatMessage).

Lemma updateBotReply_shape chunk st :
  updateBotReply chunk st = set_messages (messages (updateBotReply chunk st)) st.
Proof.
  unfold updateBotReply. destruct (_ =? _)%nat; [done|].
  destruct (_ !! _) as [m|]; [|done]. by destruct (is_model (role m)).
Qed.

Lemma updateBotReply_length chunk st :
  length (messages (updateBotReply chunk st)) = length (messages st).
Proof.
  destruct (messages st) as [|m l] eqn:Hms using rev_ind.
  - by rewrite updateBotReply_nil.
  - rewrite (updateBotReply_snoc chunk st l m Hms).
    destruct (is_model (role m)); by rewrite !length_app.
Qed.

Lemma keeps_earlier_refl (l : list ChatMessage) : keeps_earlier l l.
Proof. by split. Qed.

Lemma keeps_earlier_snoc (l : list ChatMessage) m : keeps_earlier l (l ++ [m]).
Proof.
  split; [rewrite length_app; lia|]. intros i m' _ H. by apply lookup_app_l_Some.
Qed.

Lemma keeps_earlier_update chunk st :
  keeps_earlier (messages st) (messages (updateBotReply chunk st)).
Proof.
  split; [by rewrite updateBotReply_length|].
  destruct (messages st) as [|m l] eqn:Hms using rev_ind.
  - intros i m' Hi. cbn in Hi. lia.
  - rewrite (updateBotReply_snoc chunk st l m Hms).
    intros i m' Hi. rewrite length_app in Hi. cbn in Hi.
    destruct (is_model (role m)); [|done].
    by rewrite !lookup_app_l by lia.
Qed.

(** Chunks compose.  Extending the reply by [c1] and then by [c2] is
    extending it by [c1 ++ c2]; and a [model] entry added with its first
    chunk and then extended is the entry added whole.  A [model] entry
    therefore does not depend on how its text was cut into chunks. *)
Theorem chunks_compose (c1 c2 : JsString) st :
  updateBotReply c2 (updateBotReply c1 st) = updateBotReply (c1 ++ c2) st
  ∧ (∀ m, role m = model →
       updateBotReply c2 (addMessage m st)
       = addMessage (mkChatMessage (id m) model (content m ++ c2) (timestamp m)) st).
Proof.
  split.
  - rewrite (updateBotReply_shape c2), (updateBotReply_shape (c1 ++ c2) st).
    rewrite (updateBotReply_shape c1 st) at 2. unfold set_messages. cbn.
    f_equal.
    destruct (messages st) as [|m l] eqn:Hms using rev_ind.
    + rewrite (updateBotReply_nil c2), (updateBotReply_nil (c1 ++ c2)); try done.
      by rewrite updateBotReply_nil.
    + rewrite (updateBotReply_snoc (c1 ++ c2) st l m Hms).
      pose proof (updateBotReply_snoc c1 st l m Hms) as H1.
      destruct (is_model (role m)) eqn:Hm.
      * rewrite (updateBotReply_snoc c2 _ l _ H1). cbn. rewrite Hm.
        by rewrite <- app_assoc.
      * rewrite (updateBotReply_snoc c2 _ l _ H1). by rewrite Hm.
  - intros m Hm. rewrite updateBotReply_shape.
    rewrite (updateBotReply_snoc c2 (addMessage m st) (messages st) m eq_refl).
    by rewrite Hm.
Qed.

End TranscriptFacts.

(** ** What an event may touch *)

Section FootprintFacts.

Import Page.

Variable roomId : JsString.

Implicit Types (w : World) (now : Z).

Lemma not_longer (l l' : list ChatMessage) m :
  length l' = length l → l' ≠ l ++ [m].
Proof. intros Hlen ->. rewrite length_app in Hlen. cbn in Hlen. lia. Qed.

Lemma submit_footprint text now w :
  (transcript (submit text now w) = transcript w
   ∧ sent_on_wire (submit text now w) = sent_on_wire w
   ∧ pending (submit text now w) = pending w)
  ∨ (ws_state w = Some OPEN ∧ truthy (trim text) = true
     ∧ sent_on_wire (submit text now w) = sent_on_wire w ++ [text]
     ∧ pending (submit text now w) = pending w ++ [text]
     ∧ transcript (submit text now w)
       = transcript w ++ [mkChatMessage (uuid_next (net (obs w))) user text now]).
Proof.
  destruct (Z_lt_le_dec (now - lastSendTime (chat (obs w))) COOLDOWN_MS)
    as [Hin | Hout].
  - left. destruct (submit_in_cooldown text now w Hin) as (? & ? & ? & _). done.
  - destruct (truthy (trim text)) eqn:Ht.
    + assert (ws_state w = Some OPEN ∨ ws_state w ≠ Some OPEN) as [Hws | Hws]
        by (destruct (ws_state w) as [[]|]; (by left) || (by right)).
      * right. destruct (submit_accepted text now w Hws Ht Hout)
          as (? & ? & ? & _). done.
      * left. destruct (submit_disconnected text now w Hws Ht Hout)
          as (? & ? & ? & _). done.
    + left. by apply submit_blank.
Qed.

(** The effect of one event on the transcript, the wire and the pending
    list. *)
Lemma step_footprint now e w w' :
  step roomId now e w = Some w' →
  (e = HandleConnect ∧ transcript w' = []
   ∧ sent_on_wire w' = sent_on_wire w)
  ∨ (e ≠ HandleConnect ∧ length (transcript w') = length (transcript w)
     ∧ keeps_earlier (transcript w) (transcript w')
     ∧ sent_on_wire w' = sent_on_wire w)
  ∨ (e ≠ HandleConnect ∧ sent_on_wire w' = sent_on_wire w
     ∧ ∃ m, transcript w' = transcript w ++ [m] ∧ role m ≠ user)
  ∨ (∃ text, e = Submit text ∧ ws_state w = Some OPEN
     ∧ truthy (trim text) = true
     ∧ sent_on_wire w' = sent_on_wire w ++ [text]
     ∧ pending w' = pending w ++ [text]
     ∧ transcript w'
       = transcript w ++ [mkChatMessage (uuid_next (net (obs w))) user text now]).
Proof.
  assert (∀ w0 : World,
            transcript w0 = transcript w → sent_on_wire w0 = sent_on_wire w →
            length (transcript w0) = length (transcript w)
            ∧ keeps_earlier (transcript w) (transcript w0)
            ∧ sent_on_wire w0 = sent_on_wire w) as Hsame.
  { intros w0 -> ->. split; [done|]. split; [apply keeps_earlier_refl|done]. }
  assert (∀ e0 w1, audio_step (Some playbackCallback) e0 w = Some w1 →
            transcript w1 = transcript w ∧ sent_on_wire w1 = sent_on_wire w)
    as Haudio.
  { intros e0 w1 H. apply audio_step_page_data in H.
    apply page_data_eq in H as (Hm & _ & _ & Hn).
    unfold transcript, sent_on_wire. by rewrite Hm, Hn. }
  intros Hstep. destruct e as [| | | | data | text | k | i | i | i];
    unfold step in Hstep.
  - left. injection Hstep as <-. split; [done|].
    unfold handleConnect, connect. by destruct (negb (truthy roomId)).
  - destruct (ws_state w) as [[]|]; try done. injection Hstep as <-.
    right. right. left. split; [done|]. split; [done|]. by eexists.
  - right. left. split; [done|].
    destruct (ws_state w) as [[]|]; try done; injection Hstep as <-;
      by apply Hsame.
  - right. left. split; [done|].
    destruct (ws_state w) as [[]|]; try done; injection Hstep as <-;
      by apply Hsame.
  - destruct (ws_state w) as [[]|]; try done. injection Hstep as <-.
    unfold ws_onmessage.
    destruct (classify data) as [userMsg | payload | | msg].
    + destruct (negb _).
      * right. left. split; [done|]. by apply Hsame.
      * right. right. left. split; [done|]. split; [done|]. by eexists.
    + right. left. split; [done|]. apply Hsame.
      * destruct (page_data_eq _ _ (enqueue_page_data payload w)) as (Hm & _).
        exact Hm.
      * destruct (page_data_eq _ _ (enqueue_page_data payload w))
          as (_ & _ & _ & Hn).
        unfold sent_on_wire. by rewrite Hn.
    + right. left. split; [done|]. apply Hsame;
        unfold getIsPlaying; cbn; by destruct (isPlaying (aq w)).
    + destruct (isReceivingBotMessage (hook (obs w))); cbn [negb].
      * right. left. split; [done|]. unfold transcript. cbn.
        split; [apply updateBotReply_length|].
        split; [apply keeps_earlier_update|done].
      * right. right. left. split; [done|].
        unfold getIsPlaying, transcript, sent_on_wire. cbn.
        destruct (isPlaying (aq w)); cbn; (split; [done|]); by eexists.
  - injection Hstep as <-.
    destruct (submit_footprint text now w) as [(Ht & Hw & _) | H].
    + right. left. split; [done|]. by apply Hsame.
    + right. right. right. by exists text.
  - destruct (timers (chat (obs w)) !! k) as [due|]; [|done].
    destruct (due <=? now); [|done]. injection Hstep as <-.
    right. left. split; [done|]. by apply Hsame.
  - right. left. split; [done|].
    destruct (Haudio _ _ Hstep). by apply Hsame.
  - right. left. split; [done|].
    destruct (Haudio _ _ Hstep). by apply Hsame.
  - right. left. split; [done|].
    destruct (Haudio _ _ Hstep). by apply Hsame.
Qed.

(** Only a new connection shortens the transcript.  Every other event
    (inbound frames, submissions, timers, socket close and error, the end
    or failure of an audio element) leaves every entry but possibly the
    tail where it was and as it was, and never removes an entry. *)
Theorem only_connect_shortens_transcript now (e : Event) w w' :
  step roomId now e w = Some w' →
  e ≠ HandleConnect →
  keeps_earlier (transcript w) (transcript w').
Proof.
  intros Hstep Hne.
  destruct (step_footprint now e w w' Hstep)
    as [(He & _) | [(_ & _ & Hk & _) | [(_ & _ & m & -> & _) | (t & _ & _ & _ & _ & _ & ->)]]].
  - done.
  - done.
  - apply keeps_earlier_snoc.
  - apply keeps_earlier_snoc.
Qed.

(** Nothing is sent behind the user's back.  An event writes to the socket
    only if it is a submission of a non-blank text on an open socket, and
    then the text sent is also recorded as pending and shown as a [user]
    entry; conversely no other event adds a [user] entry. *)
Theorem nothing_sent_without_local_entry now (e : Event) w w' :
  step roomId now e w = Some w' →
  (sent_on_wire w' = sent_on_wire w
   ∧ ∀ m, transcript w' = transcript w ++ [m] → role m ≠ user)
  ∨ (∃ text, e = Submit text ∧ ws_state w = Some OPEN
     ∧ truthy (trim text) = true
     ∧ sent_on_wire w' = sent_on_wire w ++ [text]
     ∧ pending w' = pending w ++ [text]
     ∧ transcript w'
       = transcript w ++ [mkChatMessage (uuid_next (net (obs w))) user text now]).
Proof.
  intros Hstep.
  destruct (step_footprint now e w w' Hstep)
    as [(_ & Ht & Hw) | [(_ & Hlen & _ & Hw) | [(_ & Hw & m & Ht & Hm) | H]]].
  - left. split; [done|]. intros m H. rewrite Ht in H.
    by destruct (transcript w).
  - left. split; [done|]. intros m H. by apply not_longer in H.
  - left. split; [done|]. intros m' H. rewrite Ht in H.
    apply app_inj_tail in H as [_ <-]. done.
  - by right.
Qed.

End FootprintFacts.

(** ** The danmaku overlay *)

Section DanmakuFacts.

Context {Num : Type}.

Implicit Types (s : Overlay Num) (st : LiveStore).

(** The overlay follows the chat entries and nothing else.  With its
    counter level with the transcript: extending the assistant's reply
    shows nothing new, whatever the chunk; adding an entry shows one
    comment, with the entry's text, when the entry is a [user] or
    [other-user] one, and nothing for a [model] or [system] entry;
    emptying the transcript removes no comment.  In each case the counter
    ends level with the new transcript. *)
Theorem danmaku_follows_chat_entries
    (clock : nat → Z) (draws : nat → Num * Num) st s :
  lastMessageCount s = length (messages st) →
  (∀ chunk,
     danmaku_effect (messages (Store.updateBotReply chunk st)) clock draws s = s)
  ∧ (∀ msg,
       danmakus (danmaku_effect (messages (Store.addMessage msg st)) clock draws s)
       = danmakus s
           ++ (if danmaku_is_chat msg
               then [mkDanmaku (id msg, clock 0%nat) (content msg)
                               (fst (draws 0%nat)) (snd (draws 0%nat))]
               else [])
       ∧ lastMessageCount
           (danmaku_effect (messages (Store.addMessage msg st)) clock draws s)
         = S (length (messages st)))
  ∧ (danmakus (danmaku_effect (messages (Store.clearMessages st)) clock draws s)
     = danmakus s
     ∧ lastMessageCount
         (danmaku_effect (messages (Store.clearMessages st)) clock draws s)
       = 0%nat).
Proof.
  intros Hsync. split; [|split].
  - intros chunk. unfold danmaku_effect.
    rewrite updateBotReply_length, Hsync, Nat.ltb_irrefl.
    destruct s as [ds n rs]. cbn in *. by subst n.
  - intros msg. unfold danmaku_effect, Store.addMessage. cbn [messages Store.set_messages].
    rewrite Hsync, length_app. cbn [length].
    assert ((length (messages st) <? length (messages st) + 1)%nat = true) as ->
      by (apply Nat.ltb_lt; lia).
    rewrite drop_app_length, filter_cons, filter_nil.
    split; [|cbn [lastMessageCount]; lia].
    destruct (danmaku_is_chat msg) eqn:Hc.
    + rewrite decide_True by done. done.
    + rewrite decide_False by (by intros ?). cbn. by rewrite app_nil_r.
  - unfold danmaku_effect. cbn. by destruct (lastMessageCount s).
Qed.

End DanmakuFacts.

(** ** The page and the sound *)

Section SoundFacts.

Import Page.

Variable roomId : JsString.

Implicit Types (w : World) (now : Z).






End SoundFacts.

(** ** More scenarios *)

Section MoreScenarios.

Import Page.


Lemma enqueue_while_playing_only_queues_witness :
  let p := enqueue recorder frag_A (fresh []) in
  isPlaying (aq p) = true
  ∧ ∃ p',
      audio_run recorder (map Enqueue [frag_B; frag_A]) p = Some p'
      ∧ queue (aq p') = queue (aq p) ++ [frag_B; frag_A]
      ∧ isPlaying (aq p') = true
      ∧ currentAudio (aq p') = currentAudio (aq p)
      ∧ dom p' = dom p
      ∧ obs p' = obs p.
Proof.
  intros p. split; [reflexivity|].
  apply (enqueue_while_playing_only_queues recorder [frag_B; frag_A] p).
  reflexivity.
Defined.

Lemma empty_payload_stalls_witness :
  let p := enqueue recorder frag_B
             (enqueue recorder [] (enqueue recorder frag_A (fresh []))) in
  let el := mkAudio 0 (data_uri frag_A) in
  coherent p
  ∧ currentAudio (aq p) = Some el
  ∧ queue (aq p) = [] :: [frag_B]
  ∧ ∃ p',
      audio_step recorder (Ended (el_id el)) p = Some p'
      ∧ isPlaying (aq p') = false
      ∧ currentAudio (aq p') = None
      ∧ sounding (dom p') = []
      ∧ queue (aq p') = [frag_B]
      ∧ played (dom p') = played (dom p)
      ∧ obs p' = obs p.
Proof.
  intros p el. split; [by vm_compute|]. split; [reflexivity|].
  split; [reflexivity|].
  apply (empty_payload_stalls recorder el [frag_B] p);
    [by vm_compute | reflexivity | reflexivity].
Defined.

Lemma idle_means_empty_queue_witness :
  ∃ p,
    audio_run recorder [Enqueue frag_A; Enqueue frag_B; Ended 0%nat; Ended 1%nat]
              (fresh []) = Some p
    ∧ isPlaying (aq p) = false
    ∧ queue (aq p) = [].
Proof.
  eexists. split; [reflexivity|]. split; [reflexivity|].
  apply (idle_means_empty_queue recorder []
           [Enqueue frag_A; Enqueue frag_B; Ended 0%nat; Ended 1%nat]);
    [reflexivity | repeat constructor | reflexivity].
Defined.

Lemma console_holds_the_failures_witness :
  ∃ p,
    audio_run recorder
      [Enqueue frag_A; Enqueue frag_B; Errored 0%nat; PlayRejected 1%nat]
      (fresh []) = Some p
    ∧ console (dom p) = [AudioPlaybackError 0; FailedToPlayAudio 1].
Proof.
  eexists. split; [reflexivity|].
  apply (console_holds_the_failures recorder []
           [Enqueue frag_A; Enqueue frag_B; Errored 0%nat; PlayRejected 1%nat]).
  reflexivity.
Defined.

Lemma spectrum_iff_playing_witness :
  ∃ p,
    audio_run recorder [Enqueue frag_A] (fresh []) = Some p
    ∧ getByteFrequencyData [12; 200; 7]%N p = Some [12; 200; 7]%N.
Proof.
  eexists. split; [reflexivity|].
  apply (spectrum_iff_playing recorder [] [Enqueue frag_A] [12; 200; 7]%N).
  reflexivity.
Defined.

Lemma whole_queue_plays_in_order_witness :
  ∃ p,
    audio_run recorder
      (map Enqueue [frag_A; frag_B; frag_A] ++ map Ended (seq 0 3))
      (fresh []) = Some p
    ∧ isPlaying (aq p) = false
    ∧ queue (aq p) = []
    ∧ sounding (dom p) = []
    ∧ map el_src (played (dom p)) = map data_uri [frag_A; frag_B; frag_A]
    ∧ console (dom p) = []
    ∧ obs p = [true; true; true; false].
Proof.
  apply (whole_queue_plays_in_order [frag_A; frag_B; frag_A]);
    [by vm_compute | repeat constructor].
Defined.

Lemma unterminated_user_frame_is_text_witness :
  classify (js "[USER:hello") = TextToken (js "[USER:hello").
Proof.
  apply (unterminated_user_frame_is_text (js "[USER:hello")); reflexivity.
Defined.

Lemma submit_while_disconnected_is_lost_witness :
  let w := submit (js "hello") 5000 initial in
  transcript w = transcript initial
  ∧ sent_on_wire w = sent_on_wire initial
  ∧ pending w = pending initial
  ∧ inputText (chat (obs w)) = []
  ∧ lastSendTime (chat (obs w)) = 5000.
Proof.
  apply (submit_while_disconnected_is_lost (js "hello") 5000 initial);
    [by vm_compute | reflexivity | by vm_compute].
Defined.

Lemma rejected_submissions_keep_the_window_witness :
  let w := submit (js "hello") 5000 (set_ready OPEN initial) in
  let attempts := [(js "a", 5100); (js "b", 6999)] in
  transcript (submit_all attempts w) = transcript w
  ∧ sent_on_wire (submit_all attempts w) = sent_on_wire w
  ∧ pending (submit_all attempts w) = pending w
  ∧ lastSendTime (chat (obs (submit_all attempts w))) = 5000
  ∧ timers (chat (obs (submit_all attempts w))) = [7000; 7000]
  ∧ (attempts ≠ [] → isCooldown (chat (obs (submit_all attempts w))) = true).
Proof.
  apply (rejected_submissions_keep_the_window
           [(js "a", 5100); (js "b", 6999)]
           (submit (js "hello") 5000 (set_ready OPEN initial))).
  repeat constructor.
Defined.

Lemma echo_round_trip_witness :
  let w := set_ready OPEN initial in
  let w' := ws_onmessage (user_frame (js "hello")) 5001
              (submit (js "hello") 5000 w) in
  pending w' ≡ₚ pending w
  ∧ (js "hello" ∉ pending w → pending w' = pending w)
  ∧ transcript w' = transcript w ++ [mkChatMessage 0 user (js "hello") 5000].
Proof.
  apply (echo_round_trip (js "hello") 5000 5001 (set_ready OPEN initial));
    [reflexivity | reflexivity | by vm_compute].
Defined.

Lemma streamed_reply_is_one_entry_witness :
  let w := set_ready OPEN initial in
  let w' := ws_onmessage (js "[EOF]") 4
              (receive [(js "Hel", 1); (js "[AUDIO:QUJD]", 2); (js "lo", 3)] w) in
  transcript w' = transcript w ++ [mkChatMessage 0 model (js "Hello") 1]
  ∧ receiving_flag w' = false.
Proof.
  apply (streamed_reply_is_one_entry (js "Hel", 1)
           [(js "[AUDIO:QUJD]", 2); (js "lo", 3)] 4 (set_ready OPEN initial));
    [reflexivity | reflexivity | by repeat constructor].
Defined.

Lemma only_connect_shortens_transcript_witness :
  ∃ w w',
    run (js "star") [(1, HandleConnect); (2, WsOpen); (3, WsMessage (js "Hi"))]
        initial = Some w
    ∧ step (js "star") 4 (WsMessage (js "[USER:yo]")) w = Some w'
    ∧ keeps_earlier (transcript w) (transcript w').
Proof.
  eexists _, _. split; [reflexivity|]. split; [reflexivity|].
  apply (only_connect_shortens_transcript (js "star") 4 (WsMessage (js "[USER:yo]")));
    [reflexivity | done].
Defined.

Lemma nothing_sent_without_local_entry_witness :
  ∃ w w',
    run (js "star") [(1, HandleConnect); (2, WsOpen)] initial = Some w
    ∧ step (js "star") 5000 (Submit (js "hello")) w = Some w'
    ∧ ((sent_on_wire w' = sent_on_wire w
        ∧ ∀ m, transcript w' = transcript w ++ [m] → role m ≠ user)
       ∨ (∃ text, Submit (js "hello") = Submit text ∧ ws_state w = Some OPEN
          ∧ truthy (trim text) = true
          ∧ sent_on_wire w' = sent_on_wire w ++ [text]
          ∧ pending w' = pending w ++ [text]
          ∧ transcript w'
            = transcript w
                ++ [mkChatMessage (uuid_next (net (obs w))) user text 5000])).
Proof.
  eexists _, _. split; [reflexivity|]. split; [reflexivity|].
  apply (nothing_sent_without_local_entry (js "star") 5000 (Submit (js "hello"))).
  reflexivity.
Defined.


Lemma danmaku_follows_chat_entries_witness :
  let st := mkLiveStore [mkChatMessage 0 model (js "Hi") 1] Thinking 1 in
  let s := mkOverlay (Num := nat) [] 1 [] in
  let remote := mkChatMessage 1 other_user (js "yo") 2 in
  danmaku_effect (messages (Store.updateBotReply (js " there") st))
                 (fun _ => 9) (fun _ => (10, 7)%nat) s = s
  ∧ danmakus (danmaku_effect (messages (Store.addMessage remote st))
                             (fun _ => 9) (fun _ => (10, 7)%nat) s)
    = [mkDanmaku (1%nat, 9) (js "yo") 10%nat 7%nat].
Proof.
  intros st s remote.
  destruct (danmaku_follows_chat_entries (fun _ => 9) (fun _ => (10, 7)%nat) st s)
    as (Hext & Hadd & _); [reflexivity|].
  split; [apply Hext | apply (Hadd remote)].
Defined.

End MoreScenarios.
